(** * Customer segmentation by keyword rules: [parse_segment_prompt]

    A shallow embedding of [parse_segment_prompt] of [app.py] (the rule
    based compiler from a free-text request to a filtered customer table
    and a list of condition strings), with the properties of its matchers.

    Modelling choices.
    - A pandas [DataFrame] is a list of column labels together with a list
      of rows.  A row carries the typed cells of the columns the function
      reads, and the cell of the derived ["age"] column when the frame has
      one.  Boolean-mask indexing [df[mask]] is [filter] on the rows.
    - Strings are byte strings; [str.lower] and [str.capitalize] fold the
      ASCII letters.
    - [Series.quantile(0.75)] is linear interpolation between the two
      neighbouring order statistics.  Flight counts and amounts are exact
      integers (amounts in minor currency units) and the threshold is an
      exact rational; [float] rounding is outside the model.  The quantile
      of an empty series is NaN, written [None].
    - A Python exception is a [Raise] result. *)

From Stdlib Require Import QArith Qround.
From stdpp Require Import gmap strings list fin_maps pretty sorting.

Local Open Scope Z_scope.

(** ** Python strings *)

Module Str.

Definition lower_char (c : Ascii.ascii) : Ascii.ascii :=
  let n := Ascii.N_of_ascii c in
  if ((65 <=? n) && (n <=? 90))%N then Ascii.ascii_of_N (n + 32) else c.

Definition upper_char (c : Ascii.ascii) : Ascii.ascii :=
  let n := Ascii.N_of_ascii c in
  if ((97 <=? n) && (n <=? 122))%N then Ascii.ascii_of_N (n - 32) else c.

(** [s.lower()] *)
Fixpoint lower (s : string) : string :=
  match s with
  | EmptyString => EmptyString
  | String c s' => String (lower_char c) (lower s')
  end.

(** [s.capitalize()]: first character upper-cased, the rest lower-cased. *)
Definition capitalize (s : string) : string :=
  match s with
  | EmptyString => EmptyString
  | String c s' => String (upper_char c) (lower s')
  end.

(** [sub in s]: [sub] occurs in [s] as a contiguous substring. *)
Fixpoint contains (sub s : string) : bool :=
  String.prefix sub s ||
  match s with
  | EmptyString => false
  | String _ s' => contains sub s'
  end.

End Str.

Import Str.

(** ** Exceptions *)

Inductive exn : Type :=
  | ValueError_nan_to_int   (* int(float('nan')) *)
  | DateParseError.         (* pd.to_datetime on a string that is no date *)

Inductive result (A : Type) : Type :=
  | Ok (a : A)
  | Raise (e : exn).
Arguments Ok {A} a.
Arguments Raise {A} e.

Definition bind {A B : Type} (m : result A) (k : A -> result B) : result B :=
  match m with
  | Ok a => k a
  | Raise e => Raise e
  end.

Notation "'let!' x ':=' m 'in' k" := (bind m (fun x => k))
  (at level 10, x pattern, m at level 100, k at level 200).

Fixpoint mapM {A B : Type} (f : A -> result B) (l : list A) : result (list B) :=
  match l with
  | [] => Ok []
  | a :: l' => let! b := f a in let! bs := mapM f l' in Ok (b :: bs)
  end.

(** ** Data model *)

(** What [pd.to_datetime] makes of a [date_of_birth] cell: a timestamp,
    [NaT] for a missing value, or a parse failure. *)
Inductive Dob : Type :=
  | Date (year month day : Z)
  | NaT
  | Unparseable.

(** The cells of a customer row that come from the input table. *)
Record Customer : Type := mkCustomer {
  customer_id : Z;
  loyalty_tier : string;
  country : string;
  total_flights : Z;
  loyalty_points : Z;
  is_active : bool;
  preferred_class : string;
  date_of_birth : Dob
}.

(** A numeric cell of a float column: NaN or a number. *)
Inductive cell : Type :=
  | NaN
  | Num (z : Z).

(** A row of the working frame: the input cells and the cell of the ["age"]
    column ([None] while the frame has no such column). *)
Record Row : Type := mkRow {
  fields : Customer;
  age : option cell
}.

Record DataFrame : Type := mkDataFrame {
  columns : list string;
  rows : list Row
}.

(** A row of the bookings table. *)
Record Booking : Type := mkBooking {
  booking_customer_id : Z;
  booking_status : string;
  total_amount : Z
}.

#[export] Instance Dob_eq_dec : EqDecision Dob.
Proof. solve_decision. Defined.
#[export] Instance Customer_eq_dec : EqDecision Customer.
Proof. solve_decision. Defined.
#[export] Instance cell_eq_dec : EqDecision cell.
Proof. solve_decision. Defined.
#[export] Instance Row_eq_dec : EqDecision Row.
Proof. solve_decision. Defined.

(** [df[mask]]: the rows where the mask holds, in their order; the columns
    are kept. *)
Definition select (P : Row -> Prop) `{!forall r, Decision (P r)}
    (df : DataFrame) : DataFrame :=
  {| columns := columns df; rows := filter P (rows df) |}.

(** [series.unique()]: the distinct values in order of first appearance. *)
Fixpoint unique (l : list string) : list string :=
  match l with
  | [] => []
  | x :: l' => x :: filter (fun y => y <> x) (unique l')
  end.

(** ** Quantiles *)

(** [series.quantile(0.75)] on an integer series, by linear interpolation:
    with [n] values sorted increasingly, the virtual index is
    [(n-1) * 3/4], [lo] and [hi] are the values at its floor and at the
    next index (clamped to [n-1]), and the result is
    [lo + (hi - lo) * gamma] with [gamma] the fractional part (kept in
    lowest terms). *)
Definition quantile75 (values : list Z) : option Q :=
  match values with
  | [] => None
  | v0 :: _ =>
      let sorted := merge_sort Z.le values in
      let n := Z.of_nat (length values) in
      let virtual := (inject_Z (n - 1) * (3 # 4))%Q in
      let previous := Qfloor virtual in
      let next := Z.min (previous + 1) (n - 1) in
      let gamma := (virtual - inject_Z previous)%Q in
      let lo := default v0 (sorted !! Z.to_nat previous) in
      let hi := default v0 (sorted !! Z.to_nat next) in
      Some (Qred (inject_Z lo + inject_Z (hi - lo) * gamma))%Q
  end.

(** [x >= threshold] on floats: false when the threshold is NaN. *)
Definition ge_threshold (x : Z) (threshold : option Q) : bool :=
  match threshold with
  | None => false
  | Some t => Qle_bool t (inject_Z x)
  end.

(** [int(threshold)]: truncation towards zero; [ValueError] on NaN. *)
Definition int_of_float (threshold : option Q) : result Z :=
  match threshold with
  | None => Raise ValueError_nan_to_int
  | Some t => Ok (Z.quot (Qnum t) (Z.pos (Qden t)))
  end.

(** ** The matchers *)

(** The state threaded through the matchers: [filtered_customers] and
    [conditions]. *)
Definition State : Type := (DataFrame * list string)%type.

(** *** Loyalty tier *)

Definition loyalty_tiers : list string :=
  ["diamond"; "platinum"; "gold"; "silver"; "none"].

Definition tier_apply (tier : string) (st : State) : State :=
  (select (fun r => lower (loyalty_tier (fields r)) = tier) st.1,
   st.2 ++ ["Loyalty tier: " +:+ capitalize tier]).

(** The [for tier in loyalty_tiers: if tier in prompt_lower: ...; break]
    loop. *)
Fixpoint tier_loop (tiers : list string) (prompt_lower : string) (st : State)
    : State :=
  match tiers with
  | [] => st
  | tier :: tiers' =>
      if contains tier prompt_lower then tier_apply tier st
      else tier_loop tiers' prompt_lower st
  end.

Definition tier_matcher (prompt_lower : string) (st : State) : State :=
  tier_loop loyalty_tiers prompt_lower st.

(** *** Country *)

Definition country_apply (c : string) (st : State) : State :=
  (select (fun r => lower (country (fields r)) = lower c) st.1,
   st.2 ++ ["Country: " +:+ c]).

(** The [for country in countries: if country.lower() in prompt_lower: ...;
    break] loop. *)
Fixpoint country_loop (countries : list string) (prompt_lower : string)
    (st : State) : State :=
  match countries with
  | [] => st
  | c :: countries' =>
      if contains (lower c) prompt_lower then country_apply c st
      else country_loop countries' prompt_lower st
  end.

Definition country_trigger (prompt_lower : string) : bool :=
  contains "from" prompt_lower || contains "in" prompt_lower
  || contains "country" prompt_lower.

(** The countries are those of the frame as narrowed so far.  (The source
    also computes [words = prompt.split()], which it never reads.) *)
Definition country_matcher (prompt_lower : string) (st : State) : State :=
  if country_trigger prompt_lower then
    country_loop (unique ((country ∘ fields) <$> rows st.1)) prompt_lower st
  else st.

(** *** Total flights *)

Definition frequency_trigger (prompt_lower : string) : bool :=
  contains "frequent" prompt_lower || contains "high" prompt_lower
  || contains "many" prompt_lower.

Definition frequency_matcher (prompt_lower : string) (st : State)
    : result State :=
  if frequency_trigger prompt_lower then
    let threshold := quantile75 ((total_flights ∘ fields) <$> rows st.1) in
    let df :=
      select (fun r => ge_threshold (total_flights (fields r)) threshold) st.1 in
    let! n := int_of_float threshold in
    Ok (df, st.2 ++ ["Frequent flyers (≥" +:+ pretty n +:+ " flights)"])
  else Ok st.

(** *** Activity: two consecutive [if] statements *)

Definition inactive_trigger (prompt_lower : string) : bool :=
  contains "inactive" prompt_lower || contains "churned" prompt_lower.

Definition active_trigger (prompt_lower : string) : bool :=
  contains "active" prompt_lower && negb (contains "inactive" prompt_lower).

Definition inactive_matcher (prompt_lower : string) (st : State) : State :=
  if inactive_trigger prompt_lower then
    (select (fun r => is_active (fields r) = false) st.1,
     st.2 ++ ["Status: Inactive"])
  else st.

Definition active_matcher (prompt_lower : string) (st : State) : State :=
  if active_trigger prompt_lower then
    (select (fun r => is_active (fields r) = true) st.1,
     st.2 ++ ["Status: Active"])
  else st.

(** *** Cabin class *)

Definition cabin_classes : list string :=
  ["economy"; "business"; "first"; "premium"].

Definition cabin_apply (cabin : string) (st : State) : State :=
  (select (fun r => contains cabin (lower (preferred_class (fields r)))) st.1,
   st.2 ++ ["Preferred class: " +:+ capitalize cabin]).

Fixpoint cabin_loop (cabins : list string) (prompt_lower : string)
    (st : State) : State :=
  match cabins with
  | [] => st
  | cabin :: cabins' =>
      if contains cabin prompt_lower then cabin_apply cabin st
      else cabin_loop cabins' prompt_lower st
  end.

Definition cabin_matcher (prompt_lower : string) (st : State) : State :=
  cabin_loop cabin_classes prompt_lower st.

(** *** Age: two consecutive [if] statements *)

(** [2026 - pd.to_datetime(date_of_birth).dt.year] for one row. *)
Definition age_of (c : Customer) : result cell :=
  match date_of_birth c with
  | Date year _ _ => Ok (Num (2026 - year))
  | NaT => Ok NaN
  | Unparseable => Raise DateParseError
  end.

Definition set_column (name : string) (cols : list string) : list string :=
  if decide (name ∈ cols) then cols else cols ++ [name].

(** [df['age'] = 2026 - pd.to_datetime(df['date_of_birth']).dt.year]: the
    column is overwritten when present and appended otherwise. *)
Definition assign_age (df : DataFrame) : result DataFrame :=
  let! rs := mapM (fun r => let! a := age_of (fields r) in
                            Ok {| fields := fields r; age := Some a |})
                  (rows df) in
  Ok {| columns := set_column "age" (columns df); rows := rs |}.

(** [lo <= df['age']] and [df['age'] <= hi]; a comparison with NaN is
    false. *)
Definition age_ge (lo : Z) (r : Row) : bool :=
  match age r with
  | Some (Num a) => lo <=? a
  | _ => false
  end.

Definition age_le (hi : Z) (r : Row) : bool :=
  match age r with
  | Some (Num a) => a <=? hi
  | _ => false
  end.

Definition young_trigger (prompt_lower : string) : bool :=
  contains "young" prompt_lower || contains "millennial" prompt_lower.

Definition senior_trigger (prompt_lower : string) : bool :=
  contains "senior" prompt_lower.

Definition young_matcher (prompt_lower : string) (st : State) : result State :=
  if young_trigger prompt_lower then
    let! df := assign_age st.1 in
    Ok (select (fun r => age_ge 25 r && age_le 40 r) df, st.2 ++ ["Age: 25-40"])
  else Ok st.

Definition senior_matcher (prompt_lower : string) (st : State) : result State :=
  if senior_trigger prompt_lower then
    let! df := assign_age st.1 in
    Ok (select (fun r => age_ge 65 r) df, st.2 ++ ["Age: 65+"])
  else Ok st.

(** *** Booking behaviour *)

(** [bookings_df[booking_status == 'Completed']
      .groupby('customer_id')['total_amount'].sum()]:
    a series indexed by customer id. *)
Definition add_booking (spend : gmap Z Z) (b : Booking) : gmap Z Z :=
  <[booking_customer_id b :=
      default 0 (spend !! booking_customer_id b) + total_amount b]> spend.

Definition completed (bookings : list Booking) : list Booking :=
  filter (fun b => booking_status b = "Completed") bookings.

Definition customer_spend (bookings : list Booking) : gmap Z Z :=
  foldl add_booking ∅ (completed bookings).

(** [customer_spend[customer_spend >= customer_spend.quantile(0.75)].index] *)
Definition high_spenders (bookings : list Booking) : gset Z :=
  let spend := customer_spend bookings in
  let threshold := quantile75 ((map_to_list spend).*2) in
  dom (filter (fun kv => ge_threshold kv.2 threshold) spend).

Definition spend_matcher (prompt_lower : string)
    (bookings_df : option (list Booking)) (st : State) : State :=
  match bookings_df with
  | Some bookings =>
      if contains "spend" prompt_lower then
        (select (fun r => customer_id (fields r) ∈ high_spenders bookings) st.1,
         st.2 ++ ["High spenders (top 25%)"])
      else st
  | None => st
  end.

(** *** The compiler *)

Definition sentinel : string := "All customers (no filters applied)".

Definition finish (st : State) : State :=
  (st.1, match st.2 with [] => [sentinel] | _ => st.2 end).

(** The matchers that read the customer table only (source lines 62-133). *)
Definition customer_side (prompt_lower : string) (customers_df : DataFrame)
    : result State :=
  let st : State := (customers_df, []) in
  let st := tier_matcher prompt_lower st in
  let st := country_matcher prompt_lower st in
  let! st := frequency_matcher prompt_lower st in
  let st := inactive_matcher prompt_lower st in
  let st := active_matcher prompt_lower st in
  let st := cabin_matcher prompt_lower st in
  let! st := young_matcher prompt_lower st in
  senior_matcher prompt_lower st.

Definition parse_segment_prompt (prompt : string) (customers_df : DataFrame)
    (bookings_df : option (list Booking))
    : result (DataFrame * list string) :=
  let prompt_lower := lower prompt in
  let! st := customer_side prompt_lower customers_df in
  let st := spend_matcher prompt_lower bookings_df st in
  Ok (finish st).

(** ** Sample data *)

Definition demo_columns : list string :=
  ["customer_id"; "loyalty_tier"; "country"; "total_flights"; "loyalty_points";
   "is_active"; "preferred_class"; "date_of_birth"].

Definition mk (id : Z) (tier ctry : string) (fl : Z) (act : bool)
    (cls : string) (dob : Dob) : Row :=
  {| fields := {| customer_id := id; loyalty_tier := tier; country := ctry;
                  total_flights := fl; loyalty_points := 0; is_active := act;
                  preferred_class := cls; date_of_birth := dob |};
     age := None |}.

Definition demo : DataFrame :=
  {| columns := demo_columns;
     rows := [mk 1 "Gold" "USA" 50 true "Economy" (Date 1990 4 12);
              mk 2 "Gold" "USA" 5 false "Business" (Date 1950 1 30);
              mk 3 "Platinum" "UK" 80 true "First" (Date 1995 7 2);
              mk 4 "Gold" "USA" 60 true "Premium Economy" (Date 1980 11 5)] |}.

Definition demo_bookings : list Booking :=
  [mkBooking 1 "Completed" 100; mkBooking 2 "Completed" 10;
   mkBooking 1 "Completed" 5; mkBooking 3 "Cancelled" 1000;
   mkBooking 4 "Completed" 40].

Example lower_ex : lower "Show Me GOLD" = "show me gold".
Proof. reflexivity. Qed.

Example capitalize_ex : capitalize "platinum" = "Platinum".
Proof. reflexivity. Qed.

Example contains_ex :
  contains "in" "inactive" = true /\ contains "" "abc" = true
  /\ contains "gold" "old g" = false.
Proof. by vm_compute. Qed.

Example unique_ex : unique ["USA"; "UK"; "USA"; "FR"; "UK"] = ["USA"; "UK"; "FR"].
Proof. by vm_compute. Qed.

Example quantile_ex : quantile75 [50; 5; 60] = Some (55 # 1)%Q.
Proof. by vm_compute. Qed.

Example quantile_interp_ex : quantile75 [1; 2] = Some (7 # 4)%Q.
Proof. by vm_compute. Qed.

Example customer_spend_ex :
  customer_spend demo_bookings !! 1 = Some 105
  /\ customer_spend demo_bookings !! 3 = None
  /\ elements (high_spenders demo_bookings) = [1].
Proof. by vm_compute. Qed.

(** ** General lemmas *)

Section Loops.

(** A first-match loop with early exit is [List.find]. *)
Lemma tier_loop_find tiers pl st :
  tier_loop tiers pl st =
    match List.find (fun t => contains t pl) tiers with
    | Some t => tier_apply t st
    | None => st
    end.
Proof.
  induction tiers as [|t tiers IH]; simpl; [done|].
  by destruct (contains t pl).
Qed.

Lemma country_loop_find cs pl st :
  country_loop cs pl st =
    match List.find (fun c => contains (lower c) pl) cs with
    | Some c => country_apply c st
    | None => st
    end.
Proof.
  induction cs as [|c cs IH]; simpl; [done|].
  by destruct (contains (lower c) pl).
Qed.

Lemma cabin_loop_find cabins pl st :
  cabin_loop cabins pl st =
    match List.find (fun c => contains c pl) cabins with
    | Some c => cabin_apply c st
    | None => st
    end.
Proof.
  induction cabins as [|c cabins IH]; simpl; [done|].
  by destruct (contains c pl).
Qed.


End Loops.

(** ** Narrowing: what every matcher preserves *)

(** [narrows df' df]: the input cells of the rows of [df'] are a
    subsequence of those of [df]. *)
Definition narrows (df' df : DataFrame) : Prop :=
  (fields <$> rows df') `sublist_of` (fields <$> rows df).

Section Narrowing.

Lemma narrows_refl df : narrows df df.
Proof. by unfold narrows. Qed.

Lemma narrows_trans df1 df2 df3 :
  narrows df1 df2 -> narrows df2 df3 -> narrows df1 df3.
Proof. unfold narrows. by etrans. Qed.

Lemma select_narrows (P : Row -> Prop) `{!forall r, Decision (P r)} df :
  narrows (select P df) df.
Proof. unfold narrows, select; simpl. apply fmap_sublist, sublist_filter. Qed.

Lemma select_columns (P : Row -> Prop) `{!forall r, Decision (P r)} df :
  columns (select P df) = columns df.
Proof. done. Qed.

Lemma mapM_age_fields rs rs' :
  mapM (fun r => let! a := age_of (fields r) in
                 Ok {| fields := fields r; age := Some a |}) rs = Ok rs' ->
  fields <$> rs' = fields <$> rs.
Proof.
  revert rs'. induction rs as [|r rs IH]; intros rs' H; simpl in H.
  - by inversion H.
  - destruct (age_of (fields r)) as [a|e]; simpl in H; [|done].
    destruct (mapM _ rs) as [bs|e]; simpl in H; [|done].
    inversion H; subst; simpl. f_equal. by apply IH.
Qed.

Lemma assign_age_fields df df' :
  assign_age df = Ok df' -> fields <$> rows df' = fields <$> rows df.
Proof.
  unfold assign_age. intros H.
  destruct (mapM _ (rows df)) as [rs|e] eqn:E; simpl in H; [|done].
  inversion H; subst; simpl. by apply mapM_age_fields.
Qed.

Lemma assign_age_columns df df' :
  assign_age df = Ok df' -> columns df' = set_column "age" (columns df).
Proof.
  unfold assign_age. intros H.
  destruct (mapM _ (rows df)) as [rs|e]; simpl in H; [|done].
  by inversion H.
Qed.

Lemma assign_age_narrows df df' : assign_age df = Ok df' -> narrows df' df.
Proof. intros H. unfold narrows. by rewrite (assign_age_fields _ _ H). Qed.

Lemma set_column_idem name cols :
  set_column name (set_column name cols) = set_column name cols.
Proof.
  unfold set_column. destruct (decide (name ∈ cols)) as [Hin|Hin].
  - by rewrite decide_True.
  - rewrite decide_True; [done|]. set_solver.
Qed.

Lemma tier_matcher_narrows pl st : narrows (tier_matcher pl st).1 st.1.
Proof.
  unfold tier_matcher. rewrite tier_loop_find.
  destruct (List.find _ _); [apply select_narrows | apply narrows_refl].
Qed.

Lemma country_matcher_narrows pl st : narrows (country_matcher pl st).1 st.1.
Proof.
  unfold country_matcher. destruct (country_trigger pl); [|apply narrows_refl].
  rewrite country_loop_find.
  destruct (List.find _ _); [apply select_narrows | apply narrows_refl].
Qed.

Lemma frequency_matcher_narrows pl st st' :
  frequency_matcher pl st = Ok st' -> narrows st'.1 st.1.
Proof.
  unfold frequency_matcher. destruct (frequency_trigger pl).
  - destruct (int_of_float _); simpl; [|done].
    intros [= <-]. apply select_narrows.
  - intros [= <-]. apply narrows_refl.
Qed.

Lemma inactive_matcher_narrows pl st : narrows (inactive_matcher pl st).1 st.1.
Proof.
  unfold inactive_matcher.
  destruct (inactive_trigger pl); [apply select_narrows | apply narrows_refl].
Qed.

Lemma active_matcher_narrows pl st : narrows (active_matcher pl st).1 st.1.
Proof.
  unfold active_matcher.
  destruct (active_trigger pl); [apply select_narrows | apply narrows_refl].
Qed.

Lemma cabin_matcher_narrows pl st : narrows (cabin_matcher pl st).1 st.1.
Proof.
  unfold cabin_matcher. rewrite cabin_loop_find.
  destruct (List.find _ _); [apply select_narrows | apply narrows_refl].
Qed.

Lemma young_matcher_narrows pl st st' :
  young_matcher pl st = Ok st' -> narrows st'.1 st.1.
Proof.
  unfold young_matcher. destruct (young_trigger pl).
  - destruct (assign_age st.1) as [df|e] eqn:E; simpl; [|done].
    intros [= <-]. simpl.
    eapply narrows_trans; [apply select_narrows | by apply assign_age_narrows].
  - intros [= <-]. apply narrows_refl.
Qed.

Lemma senior_matcher_narrows pl st st' :
  senior_matcher pl st = Ok st' -> narrows st'.1 st.1.
Proof.
  unfold senior_matcher. destruct (senior_trigger pl).
  - destruct (assign_age st.1) as [df|e] eqn:E; simpl; [|done].
    intros [= <-]. simpl.
    eapply narrows_trans; [apply select_narrows | by apply assign_age_narrows].
  - intros [= <-]. apply narrows_refl.
Qed.

Lemma spend_matcher_narrows pl b st : narrows (spend_matcher pl b st).1 st.1.
Proof.
  unfold spend_matcher. destruct b as [bookings|]; [|apply narrows_refl].
  destruct (contains "spend" pl); [apply select_narrows | apply narrows_refl].
Qed.

Lemma customer_side_narrows pl df st :
  customer_side pl df = Ok st -> narrows st.1 df.
Proof.
  unfold customer_side. intros H.
  destruct (frequency_matcher pl _) as [s3|e] eqn:E3; simpl in H; [|done].
  destruct (young_matcher pl _) as [s6|e] eqn:E6; simpl in H; [|done].
  eapply narrows_trans; [by eapply senior_matcher_narrows|].
  eapply narrows_trans; [by eapply young_matcher_narrows|].
  eapply narrows_trans; [apply cabin_matcher_narrows|].
  eapply narrows_trans; [apply active_matcher_narrows|].
  eapply narrows_trans; [apply inactive_matcher_narrows|].
  eapply narrows_trans; [by eapply frequency_matcher_narrows|].
  eapply narrows_trans; [apply country_matcher_narrows|].
  apply (tier_matcher_narrows pl (df, [])).
Qed.

Lemma parse_segment_prompt_narrows p df b out conds :
  parse_segment_prompt p df b = Ok (out, conds) -> narrows out df.
Proof.
  unfold parse_segment_prompt. intros H.
  destruct (customer_side (lower p) df) as [st|e] eqn:E; simpl in H; [|done].
  inversion H; subst.
  eapply narrows_trans; [apply spend_matcher_narrows|].
  by eapply customer_side_narrows.
Qed.

End Narrowing.

(** ** Columns of the working frame *)

Section Columns.

Lemma tier_matcher_columns pl st :
  columns (tier_matcher pl st).1 = columns st.1.
Proof.
  unfold tier_matcher. rewrite tier_loop_find. by destruct (List.find _ _).
Qed.

Lemma country_matcher_columns pl st :
  columns (country_matcher pl st).1 = columns st.1.
Proof.
  unfold country_matcher. destruct (country_trigger pl); [|done].
  rewrite country_loop_find. by destruct (List.find _ _).
Qed.

Lemma frequency_matcher_columns pl st st' :
  frequency_matcher pl st = Ok st' -> columns st'.1 = columns st.1.
Proof.
  unfold frequency_matcher. destruct (frequency_trigger pl).
  - destruct (int_of_float _); simpl; [|done]. by intros [= <-].
  - by intros [= <-].
Qed.

Lemma inactive_matcher_columns pl st :
  columns (inactive_matcher pl st).1 = columns st.1.
Proof. unfold inactive_matcher. by destruct (inactive_trigger pl). Qed.

Lemma active_matcher_columns pl st :
  columns (active_matcher pl st).1 = columns st.1.
Proof. unfold active_matcher. by destruct (active_trigger pl). Qed.

Lemma cabin_matcher_columns pl st :
  columns (cabin_matcher pl st).1 = columns st.1.
Proof.
  unfold cabin_matcher. rewrite cabin_loop_find. by destruct (List.find _ _).
Qed.

Lemma young_matcher_columns pl st st' :
  young_matcher pl st = Ok st' ->
  columns st'.1 =
    if young_trigger pl then set_column "age" (columns st.1) else columns st.1.
Proof.
  unfold young_matcher. destruct (young_trigger pl).
  - destruct (assign_age st.1) as [df|e] eqn:E; simpl; [|done].
    intros [= <-]. simpl. by apply assign_age_columns.
  - by intros [= <-].
Qed.

Lemma senior_matcher_columns pl st st' :
  senior_matcher pl st = Ok st' ->
  columns st'.1 =
    if senior_trigger pl then set_column "age" (columns st.1) else columns st.1.
Proof.
  unfold senior_matcher. destruct (senior_trigger pl).
  - destruct (assign_age st.1) as [df|e] eqn:E; simpl; [|done].
    intros [= <-]. simpl. by apply assign_age_columns.
  - by intros [= <-].
Qed.

Lemma spend_matcher_columns pl b st :
  columns (spend_matcher pl b st).1 = columns st.1.
Proof.
  unfold spend_matcher. destruct b; [|done]. by destruct (contains "spend" pl).
Qed.

Lemma customer_side_columns pl df st :
  customer_side pl df = Ok st ->
  columns st.1 =
    if young_trigger pl || senior_trigger pl
    then set_column "age" (columns df) else columns df.
Proof.
  unfold customer_side. intros H.
  destruct (frequency_matcher pl _) as [s3|e] eqn:E3; simpl in H; [|done].
  destruct (young_matcher pl _) as [s6|e] eqn:E6; simpl in H; [|done].
  rewrite (senior_matcher_columns _ _ _ H), (young_matcher_columns _ _ _ E6).
  rewrite cabin_matcher_columns, active_matcher_columns,
    inactive_matcher_columns, (frequency_matcher_columns _ _ _ E3),
    country_matcher_columns, tier_matcher_columns. simpl.
  destruct (young_trigger pl), (senior_trigger pl); simpl;
    by rewrite ?set_column_idem.
Qed.

End Columns.

(** ** Properties of [parse_segment_prompt] *)

(** C2. The end-to-end example: on the population C1..C4 the request
    "Show me gold customers from USA who fly frequently" returns exactly C4
    with the three conditions of the tier, country and frequency matchers;
    the threshold 55 is the 75th percentile of the flight counts 50, 5, 60
    left by the tier and country filters.  The cells the example leaves
    open (ids, points, cabin class, date of birth, bookings) are
    arbitrary. *)
Theorem end_to_end_example
    (c1 c2 c3 c4 : Customer) (cols : list string) (b : option (list Booking)) :
  let C (c : Customer) tier ctry fl act :=
    {| fields := {| customer_id := customer_id c; loyalty_tier := tier;
                    country := ctry; total_flights := fl;
                    loyalty_points := loyalty_points c; is_active := act;
                    preferred_class := preferred_class c;
                    date_of_birth := date_of_birth c |};
       age := None |} in
  let population :=
    {| columns := cols;
       rows := [C c1 "Gold" "USA" 50 true; C c2 "Gold" "USA" 5 false;
                C c3 "Platinum" "UK" 80 true; C c4 "Gold" "USA" 60 true] |} in
  parse_segment_prompt "Show me gold customers from USA who fly frequently"
      population b
    = Ok ({| columns := cols; rows := [C c4 "Gold" "USA" 60 true] |},
          ["Loyalty tier: Gold"; "Country: USA";
           "Frequent flyers (≥55 flights)"])
  /\ quantile75 [50; 5; 60] = Some (55 # 1)%Q
  /\ (tier_matcher "show me gold customers from usa who fly frequently"
        (population, [])).1
     = {| columns := cols;
          rows := [C c1 "Gold" "USA" 50 true; C c2 "Gold" "USA" 5 false;
                   C c4 "Gold" "USA" 60 true] |}.
Proof.
  intros C population. split; [|split].
  - destruct b; by vm_compute.
  - by vm_compute.
  - by vm_compute.
Qed.

(** C6. The loyalty-tier matcher applies the restriction of the first
    keyword of [diamond, platinum, gold, silver, none] that occurs in the
    lower-cased request, and nothing else: it leaves the state unchanged
    when no keyword occurs, and otherwise keeps the rows of that one tier
    and appends that one condition.  A request with both "gold" and
    "platinum" is restricted to Platinum. *)
Theorem tier_matcher_first_keyword p st :
  let pl := lower p in
  loyalty_tiers = ["diamond"; "platinum"; "gold"; "silver"; "none"]
  /\ match List.find (fun t => contains t pl) loyalty_tiers with
     | Some t =>
         tier_matcher pl st =
           (select (fun r => lower (loyalty_tier (fields r)) = t) st.1,
            st.2 ++ ["Loyalty tier: " +:+ capitalize t])
     | None => tier_matcher pl st = st
     end
  /\ (length (tier_matcher pl st).2 <= S (length st.2))%nat
  /\ tier_matcher (lower "Gold or Platinum members") st =
       (select (fun r => lower (loyalty_tier (fields r)) = "platinum") st.1,
        st.2 ++ ["Loyalty tier: Platinum"]).
Proof.
  intros pl. split; [done|]. split; [|split].
  - unfold tier_matcher. rewrite tier_loop_find.
    by destruct (List.find _ _).
  - unfold tier_matcher. rewrite tier_loop_find.
    destruct (List.find _ _); simpl; [rewrite length_app; simpl|]; lia.
  - done.
Qed.

(** The same for any request with both words and no "diamond". *)
Lemma tier_gold_platinum p st :
  contains "gold" (lower p) = true ->
  contains "platinum" (lower p) = true ->
  contains "diamond" (lower p) = false ->
  tier_matcher (lower p) st = tier_apply "platinum" st.
Proof.
  intros _ Hp Hd. unfold tier_matcher, loyalty_tiers. simpl.
  by rewrite Hd, Hp.
Qed.




(** The empty request and requests without any trigger word. *)
Lemma empty_request_sentinel df b :
  parse_segment_prompt "" df b = Ok (df, [sentinel]).
Proof. by destruct b. Qed.

(** ** The country trigger *)

(** [prompt.split()]: the maximal runs of non-whitespace characters. *)
Definition is_space (c : Ascii.ascii) : bool :=
  let n := Ascii.N_of_ascii c in
  (((9 <=? n) && (n <=? 13)) || ((28 <=? n) && (n <=? 32)))%N.

Fixpoint split_go (word : string) (s : string) : list string :=
  match s with
  | EmptyString => if decide (word = "") then [] else [word]
  | String c s' =>
      if is_space c then
        (if decide (word = "") then [] else [word]) ++ split_go "" s'
      else split_go (word +:+ String c "") s'
  end.

Definition split (s : string) : list string := split_go "" s.

Example split_ex : split "  Find  inactive USA " = ["Find"; "inactive"; "USA"].
Proof. by vm_compute. Qed.

(** C10. The country trigger is substring containment on the lower-cased
    request: whenever "in" occurs anywhere in it, the trigger holds and the
    matcher scans the distinct countries of the working table, restricting
    to the first one whose lower-cased name occurs in the request. *)
Theorem country_trigger_substring p st :
  contains "in" (lower p) = true ->
  country_trigger (lower p) = true
  /\ country_matcher (lower p) st =
       match List.find (fun c => contains (lower c) (lower p))
                       (unique ((country ∘ fields) <$> rows st.1)) with
       | Some c =>
           (select (fun r => lower (country (fields r)) = lower c) st.1,
            st.2 ++ ["Country: " +:+ c])
       | None => st
       end.
Proof.
  intros Hin.
  assert (country_trigger (lower p) = true) as Ht.
  { unfold country_trigger. rewrite Hin. by rewrite orb_true_r. }
  split; [done|].
  unfold country_matcher. rewrite Ht, country_loop_find.
  by destruct (List.find _ _).
Qed.

Lemma country_trigger_substring_witness :
  (contains "in" (lower "Inactive USA members") = true
   /\ ("from" ∉ split (lower "Inactive USA members"))
   /\ ("in" ∉ split (lower "Inactive USA members"))
   /\ ("country" ∉ split (lower "Inactive USA members")))
  /\ country_matcher (lower "Inactive USA members") (demo, []) =
       (select (fun r => lower (country (fields r)) = "usa") demo,
        ["Country: USA"]).
Proof.
  split.
  - split; [by vm_compute|].
    repeat split; apply (bool_decide_unpack _); by vm_compute.
  - apply (country_trigger_substring "Inactive USA members" (demo, [])).
    by vm_compute.
Defined.

(** ** The spend series *)

Definition completed_by (k : Z) (bookings : list Booking) : list Booking :=
  filter (fun b => booking_customer_id b = k) (completed bookings).

Definition completed_total (k : Z) (bookings : list Booking) : Z :=
  foldr Z.add 0 (total_amount <$> completed_by k bookings).

Section Spend.

Lemma foldl_add_booking_lookup (l : list Booking) (m : gmap Z Z) (k : Z) :
  foldl add_booking m l !! k =
    match filter (fun b => booking_customer_id b = k) l with
    | [] => m !! k
    | bs => Some (default 0 (m !! k) + foldr Z.add 0 (total_amount <$> bs))
    end.
Proof.
  revert m. induction l as [|b l IH]; intros m; [done|].
  simpl foldl. rewrite IH, filter_cons. unfold add_booking at 1 2.
  destruct (decide (booking_customer_id b = k)) as [->|Hne].
  - rewrite lookup_insert_eq. simpl.
    destruct (filter _ l) as [|b' bs]; simpl; f_equal; lia.
  - by rewrite lookup_insert_ne.
Qed.

Lemma customer_spend_lookup bookings k :
  customer_spend bookings !! k =
    if decide (completed_by k bookings = []) then None
    else Some (completed_total k bookings).
Proof.
  unfold customer_spend, completed_total, completed_by.
  rewrite foldl_add_booking_lookup, lookup_empty.
  destruct (filter _ (completed bookings)) as [|b bs]; [done|].
  rewrite decide_False by done. simpl. done.
Qed.

Lemma elem_of_high_spenders bookings k :
  k ∈ high_spenders bookings <->
  exists s, customer_spend bookings !! k = Some s
    /\ ge_threshold s
         (quantile75 ((map_to_list (customer_spend bookings)).*2)) = true.
Proof.
  unfold high_spenders. rewrite elem_of_dom. unfold is_Some.
  split.
  - intros [s Hs]. apply map_lookup_filter_Some in Hs as [Hs HP].
    exists s. split; [done|]. simpl in HP. by apply Is_true_true.
  - intros (s & Hs & HP). exists s. apply map_lookup_filter_Some.
    split; [done|]. simpl. by apply Is_true_true.
Qed.

End Spend.

(** ** Rows and conditions through the matchers *)

Section Membership.

Lemma narrows_nil df' df : narrows df' df -> rows df = [] -> rows df' = [].
Proof.
  unfold narrows. intros Hn He. rewrite He in Hn. simpl in Hn.
  apply sublist_nil_r in Hn. by apply fmap_nil_inv in Hn.
Qed.

Lemma spend_matcher_elem pl b st r :
  r ∈ rows (spend_matcher pl b st).1 -> r ∈ rows st.1.
Proof.
  unfold spend_matcher. destruct b as [bookings|]; [|done].
  destruct (contains "spend" pl); [|done].
  simpl. rewrite list_elem_of_filter. tauto.
Qed.

Lemma spend_matcher_conditions pl b st :
  st.2 `prefix_of` (spend_matcher pl b st).2.
Proof.
  unfold spend_matcher. destruct b as [bookings|]; [|done].
  destruct (contains "spend" pl); [|done]. by apply prefix_app_r.
Qed.

Lemma finish_conditions st c : c ∈ st.2 -> (finish st).2 = st.2.
Proof. unfold finish. simpl. destruct (st.2); [|done]. by intros ?%elem_of_nil. Qed.

End Membership.

(** ** The age column *)

(** The ["age"] cell of a row is the age derived from its date of birth. *)
Definition age_consistent (r : Row) : Prop :=
  exists a, age r = Some a /\ age_of (fields r) = Ok a.

Section Age.

Lemma mapM_age_consistent rs rs' :
  mapM (fun r => let! a := age_of (fields r) in
                 Ok {| fields := fields r; age := Some a |}) rs = Ok rs' ->
  Forall age_consistent rs'.
Proof.
  revert rs'. induction rs as [|r rs IH]; intros rs' H; simpl in H.
  - inversion H. constructor.
  - destruct (age_of (fields r)) as [a|e] eqn:Ea; simpl in H; [|done].
    destruct (mapM _ rs) as [bs|e]; simpl in H; [|done].
    inversion H; subst. constructor; [|by apply IH].
    exists a. by simpl.
Qed.

Lemma assign_age_consistent df df' :
  assign_age df = Ok df' -> Forall age_consistent (rows df').
Proof.
  unfold assign_age. intros H.
  destruct (mapM _ (rows df)) as [rs|e] eqn:E; simpl in H; [|done].
  inversion H; subst; simpl. by eapply mapM_age_consistent.
Qed.

(** Recomputing the column on rows that already carry it changes no row. *)
Lemma mapM_age_again rs :
  Forall age_consistent rs ->
  mapM (fun r => let! a := age_of (fields r) in
                 Ok {| fields := fields r; age := Some a |}) rs = Ok rs.
Proof.
  induction 1 as [|r rs (a & Ha & Hf) _ IH]; simpl; [done|].
  rewrite Hf. simpl. rewrite IH. simpl. f_equal. f_equal.
  destruct r as [f ag]. simpl in *. by subst.
Qed.

Lemma assign_age_again df df' :
  Forall age_consistent (rows df) ->
  assign_age df = Ok df' -> rows df' = rows df.
Proof.
  intros Hc. unfold assign_age. rewrite (mapM_age_again _ Hc). simpl.
  by intros [= <-].
Qed.

Lemma select_age_consistent (P : Row -> Prop) `{!forall r, Decision (P r)} df :
  Forall age_consistent (rows df) ->
  Forall age_consistent (rows (select P df)).
Proof.
  rewrite !Forall_forall. intros Hall r Hr. apply Hall.
  simpl in Hr. by apply list_elem_of_filter in Hr as [_ ?].
Qed.

Lemma senior_row r :
  age_consistent r -> age_ge 65 r = true ->
  exists y m d, date_of_birth (fields r) = Date y m d /\ 65 <= 2026 - y.
Proof.
  intros (a & Ha & Hf). unfold age_ge, age_of in *. rewrite Ha.
  destruct (date_of_birth (fields r)) as [y m d| |]; [|by inversion Hf..].
  inversion Hf; subst. intros Hle%Z.leb_le. eauto.
Qed.

Lemma young_not_senior (rs : list Row) :
  filter (fun r => age_ge 65 r)
    (filter (fun r => age_ge 25 r && age_le 40 r) rs) = [].
Proof.
  induction rs as [|r rs IH]; [done|].
  rewrite filter_cons. case_decide as Hy; [|done].
  rewrite filter_cons, IH. rewrite decide_False; [done|].
  apply Is_true_true in Hy. apply andb_prop in Hy as [_ Hle].
  intros Hge%Is_true_true. unfold age_ge, age_le in *.
  destruct (age r) as [[|a]|]; try done.
  apply Z.leb_le in Hle, Hge. lia.
Qed.

End Age.

(** The reading of the age matcher as [if]/[elif]: when the
    young/millennial branch fires, the senior restriction is not applied,
    so its condition is never reported. *)
Definition age_branches_elif : Prop :=
  forall p df b out conds,
    young_trigger (lower p) = true ->
    parse_segment_prompt p df b = Ok (out, conds) ->
    "Age: 65+" ∉ conds.

(** C4, as stated, fails: on "young senior customers" the senior
    restriction is applied after the young one, and both conditions are
    reported. *)
Lemma young_senior_both_applied : ~ age_branches_elif.
Proof.
  intros H.
  apply (H "young senior customers" demo None
           {| columns := demo_columns ++ ["age"]; rows := [] |}
           ["Age: 25-40"; "Age: 65+"]); [by vm_compute .. |].
  set_solver.
Qed.

(** Customers 1 and 3 (36 and 31 years old) are kept by "young customers"
    and dropped by "young senior customers". *)
Example young_then_senior_ex :
  match parse_segment_prompt "young customers" demo None with
  | Ok (out, conds) =>
      customer_id ∘ fields <$> rows out = [1; 3] /\ conds = ["Age: 25-40"]
  | Raise _ => False
  end
  /\ parse_segment_prompt "young senior customers" demo None
     = Ok ({| columns := demo_columns ++ ["age"]; rows := [] |},
           ["Age: 25-40"; "Age: 65+"]).
Proof. split; by vm_compute. Qed.

(** C4, amended.  The two age statements are consecutive [if]s.  Whenever
    "senior" occurs in the request and the function returns, the senior
    restriction has been applied: "Age: 65+" is among the conditions and
    every returned row has a birth year at most 1961.  When
    "young"/"millennial" occurs as well, "Age: 25-40" is reported too and no
    row is returned. *)
Theorem senior_always_applied p df b out conds :
  senior_trigger (lower p) = true ->
  parse_segment_prompt p df b = Ok (out, conds) ->
  "Age: 65+" ∈ conds
  /\ (forall r, r ∈ rows out ->
        exists y m d, date_of_birth (fields r) = Date y m d /\ 65 <= 2026 - y)
  /\ (young_trigger (lower p) = true -> "Age: 25-40" ∈ conds /\ rows out = []).
Proof.
  intros Hs H. unfold parse_segment_prompt in H.
  destruct (customer_side (lower p) df) as [st|e] eqn:Hc; simpl in H; [|done].
  injection H as <- <-.
  unfold customer_side in Hc.
  destruct (frequency_matcher (lower p) _) as [s3|e] eqn:E3; simpl in Hc; [|done].
  destruct (young_matcher (lower p) _) as [s6|e] eqn:E6; simpl in Hc; [|done].
  unfold senior_matcher in Hc. rewrite Hs in Hc.
  destruct (assign_age s6.1) as [df7|e] eqn:E7; simpl in Hc; [|done].
  injection Hc as <-.
  set (st := (select (fun r => age_ge 65 r) df7, s6.2 ++ ["Age: 65+"]) : State).
  assert (Hin : forall c, c ∈ st.2 ->
            c ∈ (finish (spend_matcher (lower p) b st)).2).
  { intros c Hc.
    assert (c ∈ (spend_matcher (lower p) b st).2) as Hc'
      by (eapply elem_of_prefix; [exact Hc | apply spend_matcher_conditions]).
    by rewrite (finish_conditions _ _ Hc'). }
  split; [|split].
  - apply Hin. subst st. simpl. set_solver.
  - intros r Hr. simpl in Hr. apply spend_matcher_elem in Hr.
    subst st. simpl in Hr. apply list_elem_of_filter in Hr as [Hge Hr].
    apply senior_row; [|by apply Is_true_true].
    pose proof (assign_age_consistent _ _ E7) as Hall.
    by eapply Forall_forall in Hall.
  - intros Hy. unfold young_matcher in E6. rewrite Hy in E6.
    destruct (assign_age _) as [df6|e] eqn:E6'; simpl in E6; [|done].
    injection E6 as <-. split.
    + apply Hin. subst st. simpl. set_solver.
    + apply (narrows_nil _ st.1); [apply spend_matcher_narrows|].
      subst st. simpl in *.
      rewrite (assign_age_again _ _
                 (select_age_consistent _ _ (assign_age_consistent _ _ E6'))
                 E7).
      apply young_not_senior.
Qed.

Lemma senior_always_applied_witness :
  (senior_trigger (lower "gold seniors") = true
   /\ parse_segment_prompt "gold seniors" demo None
      = Ok ({| columns := demo_columns ++ ["age"];
               rows := [{| fields := fields (mk 2 "Gold" "USA" 5 false
                                               "Business" (Date 1950 1 30));
                           age := Some (Num 76) |}] |},
            ["Loyalty tier: Gold"; "Age: 65+"]))
  /\ "Age: 65+" ∈ ["Loyalty tier: Gold"; "Age: 65+"].
Proof.
  assert (senior_trigger (lower "gold seniors") = true) as H1 by (by vm_compute).
  assert (parse_segment_prompt "gold seniors" demo None
      = Ok ({| columns := demo_columns ++ ["age"];
               rows := [{| fields := fields (mk 2 "Gold" "USA" 5 false
                                               "Business" (Date 1950 1 30));
                           age := Some (Num 76) |}] |},
            ["Loyalty tier: Gold"; "Age: 65+"])) as H2 by (by vm_compute).
  split; [done|].
  exact (proj1 (senior_always_applied _ _ _ _ _ H1 H2)).
Defined.

(** ** The schema of the result *)

(** The reading of the result as a table with the columns of the input. *)
Definition schema_preserved : Prop :=
  forall p df b out conds,
    parse_segment_prompt p df b = Ok (out, conds) -> columns out = columns df.

(** C9, as stated, fails: "young customers" returns a table with the
    additional column ["age"]. *)
Lemma young_adds_age_column : ~ schema_preserved.
Proof.
  intros H.
  assert (parse_segment_prompt "young customers" demo None
    = Ok ({| columns := demo_columns ++ ["age"];
             rows := [{| fields := fields (mk 1 "Gold" "USA" 50 true "Economy"
                                             (Date 1990 4 12));
                         age := Some (Num 36) |};
                      {| fields := fields (mk 3 "Platinum" "UK" 80 true "First"
                                             (Date 1995 7 2));
                         age := Some (Num 31) |}] |},
          ["Age: 25-40"])) as E by (by vm_compute).
  apply H in E. simpl in E. by apply (f_equal length) in E.
Qed.

(** ** The activity matcher *)

(** With "churned" and "active" but no "inactive" in the request, both
    activity statements fire: both restrictions are applied, both
    conditions are appended, and no row is left. *)
Lemma churned_active_both pl st :
  contains "churned" pl = true ->
  contains "active" pl = true ->
  contains "inactive" pl = false ->
  active_matcher pl (inactive_matcher pl st) =
    (select (fun r => is_active (fields r) = true)
       (select (fun r => is_active (fields r) = false) st.1),
     st.2 ++ ["Status: Inactive"; "Status: Active"])
  /\ rows (active_matcher pl (inactive_matcher pl st)).1 = [].
Proof.
  intros Hc Ha Hi.
  assert (active_matcher pl (inactive_matcher pl st) =
    (select (fun r => is_active (fields r) = true)
       (select (fun r => is_active (fields r) = false) st.1),
     st.2 ++ ["Status: Inactive"; "Status: Active"])) as ->.
  { unfold active_matcher, inactive_matcher, active_trigger, inactive_trigger.
    rewrite Hc, Ha, Hi, orb_true_r. simpl. by rewrite <- app_assoc. }
  split; [done|]. simpl.
  induction (rows st.1) as [|r rs IH]; [done|].
  rewrite filter_cons. case_decide as Hf; [|done].
  rewrite filter_cons, IH. rewrite decide_False; [done|]. congruence.
Qed.

(** With "inactive" in the request the active statement never fires. *)
Lemma inactive_excludes_active pl :
  contains "inactive" pl = true -> active_trigger pl = false.
Proof. intros H. unfold active_trigger. rewrite H. apply andb_false_r. Qed.

(** C3 at the request "churned active customers": the inactive filter and
    the active filter are both applied; the result has no row and reports
    both "Status: Inactive" and "Status: Active". *)
Theorem churned_active_request :
  parse_segment_prompt "churned active customers" demo None
    = Ok ({| columns := demo_columns; rows := [] |},
          ["Status: Inactive"; "Status: Active"]).
Proof. by vm_compute. Qed.

(** ** The frequency matcher on an empty table *)

(** When the table that reaches the frequency matcher has no row, the
    matcher raises: the quantile is NaN and [int(threshold)] fails. *)
Lemma frequency_matcher_empty pl st :
  frequency_trigger pl = true -> rows st.1 = [] ->
  frequency_matcher pl st = Raise ValueError_nan_to_int.
Proof.
  intros Ht He. unfold frequency_matcher. by rewrite Ht, He.
Qed.

Lemma frequency_empty_raises p df b :
  frequency_trigger (lower p) = true ->
  rows (country_matcher (lower p) (tier_matcher (lower p) (df, []))).1 = [] ->
  parse_segment_prompt p df b = Raise ValueError_nan_to_int.
Proof.
  intros Ht He. unfold parse_segment_prompt, customer_side.
  by rewrite (frequency_matcher_empty _ _ Ht He).
Qed.

(** The spend matcher takes the same quantile of an empty series and
    returns the empty table. *)
Example spend_empty_ex :
  parse_segment_prompt "top spend" demo (Some [])
    = Ok ({| columns := demo_columns; rows := [] |},
          ["High spenders (top 25%)"]).
Proof. by vm_compute. Qed.

(** C8 at the request "diamond customers who fly frequently" on a table
    without Diamond customers: the tier filter leaves no row and the
    frequency matcher raises [ValueError]. *)
Theorem frequency_empty_request :
  rows (tier_matcher (lower "diamond customers who fly frequently")
          (demo, [])).1 = []
  /\ parse_segment_prompt "diamond customers who fly frequently" demo None
     = Raise ValueError_nan_to_int.
Proof. split; by vm_compute. Qed.


(** * Further properties of the compiler and of the pages that use it *)

(** ** Substrings and case folding *)

Section Strings.

Lemma lower_char_idem c : lower_char (lower_char c) = lower_char c.
Proof. destruct c as [[] [] [] [] [] [] [] []]; by vm_compute. Qed.

Lemma lower_idem s : lower (lower s) = lower s.
Proof.
  induction s as [|c s IH]; simpl; [done|]. by rewrite lower_char_idem, IH.
Qed.

Lemma string_app_cons c (a b : string) : String c a +:+ b = String c (a +:+ b).
Proof. done. Qed.

Lemma prefix_app sub s :
  String.prefix sub s = true <-> exists post, s = sub +:+ post.
Proof.
  revert s. induction sub as [|a sub IH]; intros s.
  - split; [intros _; by exists s | by destruct s].
  - destruct s as [|b s]; simpl.
    + split; [done | by intros [post Hp]].
    + destruct (Ascii.ascii_dec a b) as [->|Hne].
      * rewrite IH. split; intros [post Hp]; exists post.
        -- by rewrite string_app_cons, Hp.
        -- rewrite string_app_cons in Hp. by injection Hp.
      * split; [done|]. intros [post Hp].
        rewrite string_app_cons in Hp. injection Hp as Hab _. congruence.
Qed.

(** [sub in s] holds exactly when [s] is [pre + sub + post]. *)
Lemma contains_app sub s :
  contains sub s = true <-> exists pre post, s = pre +:+ sub +:+ post.
Proof.
  induction s as [|c s IH]; cbn [contains].
  - rewrite orb_false_r, prefix_app. split.
    + intros [post Hp]. by exists "", post.
    + intros (pre & post & Hp). destruct pre; [by exists post|done].
  - rewrite orb_true_iff, prefix_app, IH. split.
    + intros [[post Hp]|(pre & post & Hp)].
      * by exists "", post.
      * exists (String c pre), post. by rewrite string_app_cons, Hp.
    + intros (pre & post & Hp). destruct pre as [|c' pre].
      * left. by exists post.
      * right. rewrite string_app_cons in Hp. injection Hp as _ Hp.
        by exists pre, post.
Qed.

Lemma string_app_assoc (a b c : string) : (a +:+ b) +:+ c = a +:+ b +:+ c.
Proof.
  induction a as [|x a IH]; [done|]. by rewrite !string_app_cons, IH.
Qed.

Lemma contains_trans a b c :
  contains a b = true -> contains b c = true -> contains a c = true.
Proof.
  rewrite !contains_app. intros (p1 & q1 & ->) (p2 & q2 & ->).
  exists (p2 +:+ p1), (q1 +:+ q2). by rewrite !string_app_assoc.
Qed.

End Strings.

(** X1. The request is read case-insensitively: only its lower-cased text
    is looked at, so a request and its lower-cased form give the same
    result, and so do any two requests with the same lower-cased text. *)
Theorem parse_segment_prompt_case_insensitive p p' df b :
  lower p = lower p' ->
  parse_segment_prompt p df b = parse_segment_prompt p' df b
  /\ parse_segment_prompt (lower p) df b = parse_segment_prompt p df b.
Proof.
  intros H. unfold parse_segment_prompt. by rewrite lower_idem, H.
Qed.

Lemma parse_segment_prompt_case_insensitive_witness :
  lower "GOLD Members From usa" = lower "gold members from USA"
  /\ parse_segment_prompt "GOLD Members From usa" demo None
     = parse_segment_prompt "gold members from USA" demo None.
Proof.
  split; [by vm_compute|].
  apply (parse_segment_prompt_case_insensitive
           "GOLD Members From usa" "gold members from USA" demo None).
  by vm_compute.
Defined.

(** X2. Keywords of other matchers contain the trigger "in": every request
    with "platinum", "business" or "inactive" in it activates the country
    scan, and every request with "inactive" contains "active". *)
Theorem keywords_trigger_country pl :
  (contains "platinum" pl || contains "business" pl
   || contains "inactive" pl) = true ->
  country_trigger pl = true
  /\ (contains "inactive" pl = true -> contains "active" pl = true).
Proof.
  intros H. split.
  - unfold country_trigger.
    assert (contains "in" pl = true) as ->; [|by rewrite orb_true_r].
    apply orb_prop in H as [H|H]; [apply orb_prop in H as [H|H]|];
      (eapply contains_trans; [|exact H]); by vm_compute.
  - intros Hi. eapply contains_trans; [|exact Hi]. by vm_compute.
Qed.

Lemma keywords_trigger_country_witness :
  (contains "platinum" "platinum members uk" || contains "business" "platinum members uk"
   || contains "inactive" "platinum members uk") = true
  /\ country_trigger "platinum members uk" = true.
Proof.
  split; [by vm_compute|].
  apply (keywords_trigger_country "platinum members uk"). by vm_compute.
Defined.

(** ** Bounds of the 75th percentile *)

From Stdlib Require Import Lqa.

Section Quantile.

Lemma sorted_lookup_le (l : list Z) (i j : nat) (a b : Z) :
  StronglySorted Z.le l -> (i <= j)%nat ->
  l !! i = Some a -> l !! j = Some b -> a <= b.
Proof.
  intros Hs. revert i j. induction Hs as [|x l Hs IH Hall]; intros i j Hij Ha Hb.
  - done.
  - destruct i as [|i], j as [|j]; simpl in *.
    + by simplify_eq.
    + simplify_eq. rewrite Forall_forall in Hall. apply Hall.
      by eapply list_elem_of_lookup_2.
    + lia.
    + eapply IH; [|done..]. lia.
Qed.

Lemma interpolation_between (lo hi : Z) (g : Q) :
  lo <= hi -> (0 <= g)%Q -> (g <= 1)%Q ->
  (inject_Z lo <= inject_Z lo + inject_Z (hi - lo) * g)%Q
  /\ (inject_Z lo + inject_Z (hi - lo) * g <= inject_Z hi)%Q.
Proof.
  intros Hle H0 H1.
  assert (0 <= inject_Z (hi - lo))%Q as Hd.
  { change 0%Q with (inject_Z 0). rewrite <- Zle_Qle. lia. }
  assert (inject_Z hi == inject_Z lo + inject_Z (hi - lo))%Q as Hhi.
  { rewrite <- inject_Z_plus. by replace (lo + (hi - lo)) with hi by lia. }
  split; [|rewrite Hhi]; nra.
Qed.

(** The percentile of a non-empty series lies between two of its values. *)
Lemma quantile75_between (values : list Z) :
  values <> [] ->
  exists t lo hi,
    quantile75 values = Some t
    /\ lo ∈ values /\ hi ∈ values
    /\ (inject_Z lo <= t)%Q /\ (t <= inject_Z hi)%Q.
Proof.
  intros Hne. destruct values as [|v0 vs]; [done|].
  unfold quantile75.
  set (values := v0 :: vs).
  set (sorted := merge_sort Z.le values).
  set (n := Z.of_nat (length values)).
  set (virtual := (inject_Z (n - 1) * (3 # 4))%Q).
  set (previous := Qfloor virtual).
  set (next := Z.min (previous + 1) (n - 1)).
  assert (1 <= n) as Hn by (subst n values; simpl; lia).
  assert (0 <= virtual)%Q as Hv0.
  { subst virtual. apply Qmult_le_0_compat; [|done].
    change 0%Q with (inject_Z 0). rewrite <- Zle_Qle. lia. }
  assert (virtual <= inject_Z (n - 1))%Q as Hv1.
  { subst virtual.
    assert (0 <= inject_Z (n - 1))%Q
      by (change 0%Q with (inject_Z 0); rewrite <- Zle_Qle; lia).
    nra. }
  assert (0 <= previous <= n - 1) as Hp.
  { subst previous. split.
    - rewrite <- (Qfloor_Z 0). by apply Qfloor_resp_le.
    - rewrite <- (Qfloor_Z (n - 1)). by apply Qfloor_resp_le. }
  assert (previous <= next <= n - 1) as Hnx by (subst next; lia).
  assert (length sorted = length values) as Hlen
    by (subst sorted; by rewrite merge_sort_Permutation).
  destruct (lookup_lt_is_Some_2 sorted (Z.to_nat previous)) as [lo Hlo].
  { rewrite Hlen. subst n. lia. }
  destruct (lookup_lt_is_Some_2 sorted (Z.to_nat next)) as [hi Hhi].
  { rewrite Hlen. subst n. lia. }
  rewrite Hlo, Hhi. simpl.
  assert (lo <= hi) as Hle.
  { eapply (sorted_lookup_le sorted); [|
      |exact Hlo|exact Hhi]; [|lia].
    subst sorted. apply (StronglySorted_merge_sort _). }
  assert (0 <= virtual - inject_Z previous)%Q as Hg0.
  { pose proof (Qfloor_le virtual). subst previous. lra. }
  assert (virtual - inject_Z previous <= 1)%Q as Hg1.
  { pose proof (Qlt_floor virtual) as Hlt. subst previous.
    rewrite inject_Z_plus in Hlt. change (inject_Z 1) with 1%Q in Hlt. lra. }
  destruct (interpolation_between lo hi _ Hle Hg0 Hg1) as [Hl Hh].
  eexists _, lo, hi. split; [done|].
  split; [|split].
  - apply (list_elem_of_lookup_2 _ _ _) in Hlo.
    subst sorted. by rewrite merge_sort_Permutation in Hlo.
  - apply (list_elem_of_lookup_2 _ _ _) in Hhi.
    subst sorted. by rewrite merge_sort_Permutation in Hhi.
  - by rewrite !Qred_correct.
Qed.

Lemma quantile75_nil_iff (values : list Z) :
  quantile75 values = None <-> values = [].
Proof. by destruct values. Qed.

End Quantile.

(** X3. The 75th percentile of a non-empty integer series exists and lies
    between the smallest and the largest value of the series: every lower
    bound of the series is below it, every upper bound above it; the
    percentile of an empty series is NaN. *)
Theorem quantile75_bounds (values : list Z) (a b : Z) :
  values <> [] ->
  (forall v, v ∈ values -> a <= v <= b) ->
  (exists t, quantile75 values = Some t
     /\ (inject_Z a <= t)%Q /\ (t <= inject_Z b)%Q)
  /\ quantile75 [] = None.
Proof.
  intros Hne Hb. split; [|done].
  destruct (quantile75_between values Hne)
    as (t & lo & hi & Ht & Hlo & Hhi & Hl & Hh).
  exists t. split; [done|].
  apply Hb in Hlo, Hhi.
  assert (inject_Z a <= inject_Z lo)%Q by (rewrite <- Zle_Qle; lia).
  assert (inject_Z hi <= inject_Z b)%Q by (rewrite <- Zle_Qle; lia).
  split; lra.
Qed.

Lemma quantile75_bounds_witness :
  [50; 5; 60] <> []
  /\ exists t, quantile75 [50; 5; 60] = Some t
       /\ (inject_Z 5 <= t)%Q /\ (t <= inject_Z 60)%Q.
Proof.
  split; [done|].
  apply (quantile75_bounds [50; 5; 60] 5 60); [done|].
  intros v Hv. repeat (apply elem_of_cons in Hv as [->|Hv]; [lia|]).
  by apply elem_of_nil in Hv.
Defined.

(** ** The matchers as steps *)

(** One matcher step: the state is unchanged, or the table is narrowed and
    one condition, which is not the sentinel, is appended. *)
Definition step (st st' : State) : Prop :=
  st' = st
  \/ exists df' c, st' = (df', st.2 ++ [c]) /\ c <> sentinel /\ narrows df' st.1.

(** The states between the matchers of one run. *)
Record Stages : Type := mkStages {
  s_tier : State; s_country : State; s_frequency : State;
  s_inactive : State; s_active : State; s_cabin : State;
  s_young : State; s_senior : State; s_spend : State
}.

Definition stages_of (pl : string) (df : DataFrame)
    (b : option (list Booking)) (s : Stages) : Prop :=
  s_tier s = tier_matcher pl (df, [])
  /\ s_country s = country_matcher pl (s_tier s)
  /\ frequency_matcher pl (s_country s) = Ok (s_frequency s)
  /\ s_inactive s = inactive_matcher pl (s_frequency s)
  /\ s_active s = active_matcher pl (s_inactive s)
  /\ s_cabin s = cabin_matcher pl (s_active s)
  /\ young_matcher pl (s_cabin s) = Ok (s_young s)
  /\ senior_matcher pl (s_young s) = Ok (s_senior s)
  /\ s_spend s = spend_matcher pl b (s_senior s).

Section Steps.

Lemma step_narrows st st' : step st st' -> narrows st'.1 st.1.
Proof.
  intros [->|(df' & c & -> & _ & Hn)]; [apply narrows_refl | done].
Qed.

Lemma step_conditions st st' : step st st' -> st.2 `prefix_of` st'.2.
Proof.
  intros [->|(df' & c & -> & _ & _)]; [done | by apply prefix_app_r].
Qed.

Lemma step_length st st' :
  step st st' -> (length st'.2 <= S (length st.2))%nat.
Proof.
  intros [->|(df' & c & -> & _ & _)]; simpl; [|rewrite length_app; simpl]; lia.
Qed.

(** A step keeps: no sentinel among the conditions, and the input table as
    long as no condition has been appended. *)
Definition untouched (df : DataFrame) (st : State) : Prop :=
  (sentinel ∉ st.2) /\ (st.2 = [] -> st.1 = df).

Lemma step_untouched df st st' :
  step st st' -> untouched df st -> untouched df st'.
Proof.
  intros [->|(df' & c & -> & Hc & _)] [Hs He]; [done|]. split; simpl.
  - rewrite elem_of_app, list_elem_of_singleton. intros [?|?]; [done|].
    by apply Hc.
  - intros Hnil. by apply app_eq_nil in Hnil as [_ ?].
Qed.

Lemma tier_matcher_step pl st : step st (tier_matcher pl st).
Proof.
  unfold tier_matcher. rewrite tier_loop_find.
  destruct (List.find _ _) as [t|]; [|by left].
  right. eexists _, _. split; [done|]. split; [done|]. apply select_narrows.
Qed.

Lemma country_matcher_step pl st : step st (country_matcher pl st).
Proof.
  unfold country_matcher. destruct (country_trigger pl); [|by left].
  rewrite country_loop_find. destruct (List.find _ _) as [c|]; [|by left].
  right. eexists _, _. split; [done|]. split; [done|]. apply select_narrows.
Qed.

Lemma frequency_matcher_step pl st st' :
  frequency_matcher pl st = Ok st' -> step st st'.
Proof.
  unfold frequency_matcher. destruct (frequency_trigger pl).
  - destruct (int_of_float _) as [n|]; simpl; [|done]. intros [= <-].
    right. eexists _, _. split; [done|]. split; [done|]. apply select_narrows.
  - intros [= <-]. by left.
Qed.

Lemma inactive_matcher_step pl st : step st (inactive_matcher pl st).
Proof.
  unfold inactive_matcher. destruct (inactive_trigger pl); [|by left].
  right. eexists _, _. split; [done|]. split; [done|]. apply select_narrows.
Qed.

Lemma active_matcher_step pl st : step st (active_matcher pl st).
Proof.
  unfold active_matcher. destruct (active_trigger pl); [|by left].
  right. eexists _, _. split; [done|]. split; [done|]. apply select_narrows.
Qed.

Lemma cabin_matcher_step pl st : step st (cabin_matcher pl st).
Proof.
  unfold cabin_matcher. rewrite cabin_loop_find.
  destruct (List.find _ _) as [c|]; [|by left].
  right. eexists _, _. split; [done|]. split; [done|]. apply select_narrows.
Qed.

Lemma young_matcher_step pl st st' :
  young_matcher pl st = Ok st' -> step st st'.
Proof.
  intros H. pose proof (young_matcher_narrows _ _ _ H) as Hn.
  unfold young_matcher in H. destruct (young_trigger pl).
  - destruct (assign_age st.1) as [df|]; simpl in H; [|done].
    injection H as <-. right. eexists _, _. by split; [done|].
  - injection H as <-. by left.
Qed.

Lemma senior_matcher_step pl st st' :
  senior_matcher pl st = Ok st' -> step st st'.
Proof.
  intros H. pose proof (senior_matcher_narrows _ _ _ H) as Hn.
  unfold senior_matcher in H. destruct (senior_trigger pl).
  - destruct (assign_age st.1) as [df|]; simpl in H; [|done].
    injection H as <-. right. eexists _, _. by split; [done|].
  - injection H as <-. by left.
Qed.

Lemma spend_matcher_step pl b st : step st (spend_matcher pl b st).
Proof.
  unfold spend_matcher. destruct b as [bookings|]; [|by left].
  destruct (contains "spend" pl); [|by left].
  right. eexists _, _. split; [done|]. split; [done|]. apply select_narrows.
Qed.

(** A returning run has its nine intermediate states. *)
Lemma parse_segment_prompt_stages p df b out conds :
  parse_segment_prompt p df b = Ok (out, conds) ->
  exists s, stages_of (lower p) df b s
    /\ out = (s_spend s).1 /\ conds = (finish (s_spend s)).2.
Proof.
  unfold parse_segment_prompt, customer_side. intros H.
  destruct (frequency_matcher (lower p) _) as [s3|e] eqn:E3; simpl in H; [|done].
  destruct (young_matcher (lower p) _) as [s7|e] eqn:E7; simpl in H; [|done].
  destruct (senior_matcher (lower p) s7) as [s8|e] eqn:E8; simpl in H; [|done].
  injection H as <- <-.
  eexists (mkStages _ _ s3 _ _ _ s7 s8 _). unfold stages_of. simpl.
  repeat split; done.
Qed.

Lemma stages_steps pl df b s :
  stages_of pl df b s ->
  step (df, []) (s_tier s) /\ step (s_tier s) (s_country s)
  /\ step (s_country s) (s_frequency s) /\ step (s_frequency s) (s_inactive s)
  /\ step (s_inactive s) (s_active s) /\ step (s_active s) (s_cabin s)
  /\ step (s_cabin s) (s_young s) /\ step (s_young s) (s_senior s)
  /\ step (s_senior s) (s_spend s).
Proof.
  intros (H1 & H2 & H3 & H4 & H5 & H6 & H7 & H8 & H9).
  rewrite H1, H2 at 1. rewrite H4, H5, H6, H9 at 1.
  repeat split;
    eauto using tier_matcher_step, country_matcher_step, frequency_matcher_step,
      inactive_matcher_step, active_matcher_step, cabin_matcher_step,
      young_matcher_step, senior_matcher_step, spend_matcher_step.
Qed.

(** Every intermediate table narrows to the final one. *)
Lemma stages_narrow pl df b s :
  stages_of pl df b s ->
  narrows (s_spend s).1 (s_senior s).1 /\ narrows (s_spend s).1 (s_young s).1
  /\ narrows (s_spend s).1 (s_cabin s).1 /\ narrows (s_spend s).1 (s_active s).1
  /\ narrows (s_spend s).1 (s_inactive s).1
  /\ narrows (s_spend s).1 (s_frequency s).1
  /\ narrows (s_spend s).1 (s_country s).1 /\ narrows (s_spend s).1 (s_tier s).1.
Proof.
  intros Hs. destruct (stages_steps _ _ _ _ Hs)
    as (_ & K2 & K3 & K4 & K5 & K6 & K7 & K8 & K9).
  apply step_narrows in K2, K3, K4, K5, K6, K7, K8, K9.
  repeat split; eauto 12 using narrows_trans.
Qed.

Lemma narrows_forall (P : Customer -> Prop) df' df :
  narrows df' df ->
  (forall r, r ∈ rows df -> P (fields r)) ->
  forall r, r ∈ rows df' -> P (fields r).
Proof.
  unfold narrows. intros Hn Hall r Hr.
  assert (fields r ∈ fields <$> rows df) as Hin.
  { eapply elem_of_sublist; [|exact Hn]. by apply list_elem_of_fmap_2. }
  apply list_elem_of_fmap in Hin as (r0 & -> & Hr0). by apply Hall.
Qed.

End Steps.

(** ** The frequency matcher on a table with rows *)

Section Raising.

Lemma narrows_elem df' df r :
  narrows df' df -> r ∈ rows df' ->
  exists r0, r0 ∈ rows df /\ fields r = fields r0.
Proof.
  unfold narrows. intros Hn Hr.
  assert (fields r ∈ fields <$> rows df) as Hin.
  { eapply elem_of_sublist; [|exact Hn]. by apply list_elem_of_fmap_2. }
  apply list_elem_of_fmap in Hin as (r0 & Heq & Hr0). eauto.
Qed.

(** The frequency matcher on a table with a row: the percentile exists,
    nothing is raised, and a row with the upper interpolation value stays. *)
Lemma frequency_matcher_some pl st :
  frequency_trigger pl = true -> rows st.1 <> [] ->
  exists (t : Q) (n : Z) (r : Row),
    quantile75 ((total_flights ∘ fields) <$> rows st.1) = Some t
    /\ frequency_matcher pl st =
         Ok (select (fun r => ge_threshold (total_flights (fields r)) (Some t))
               st.1,
             st.2 ++ ["Frequent flyers (≥" +:+ pretty n +:+ " flights)"])
    /\ r ∈ rows st.1 /\ ge_threshold (total_flights (fields r)) (Some t) = true.
Proof.
  intros Ht Hne.
  destruct (quantile75_between ((total_flights ∘ fields) <$> rows st.1))
    as (t & lo & hi & Hq & _ & Hhi & _ & Hle).
  { intros Hnil. by apply fmap_nil_inv in Hnil. }
  apply list_elem_of_fmap in Hhi as (r & -> & Hr).
  exists t, (Z.quot (Qnum t) (Z.pos (Qden t))), r.
  split; [done|]. split; [|split; [done|]].
  - unfold frequency_matcher. by rewrite Ht, Hq.
  - simpl. by apply Qle_bool_iff.
Qed.

End Raising.

(** X4. On a table with at least one row the frequency matcher does not
    raise and does not empty the table: it keeps at least one row (one
    whose flight count is at or above the percentile), only rows of the
    table it was given, and appends one condition. *)
Theorem frequency_matcher_nonempty pl st :
  frequency_trigger pl = true -> rows st.1 <> [] ->
  exists st',
    frequency_matcher pl st = Ok st'
    /\ rows st'.1 <> []
    /\ (forall r, r ∈ rows st'.1 -> r ∈ rows st.1)
    /\ length st'.2 = S (length st.2).
Proof.
  intros Ht Hne.
  destruct (frequency_matcher_some pl st Ht Hne) as (t & n & r & _ & Hok & Hr & Hge).
  eexists. split; [exact Hok|]. cbn [fst snd select rows]. split; [|split].
  - intros Hnil.
    assert (r ∈ filter
              (fun r => ge_threshold (total_flights (fields r)) (Some t))
              (rows st.1)) as Hin.
    { apply list_elem_of_filter. split; [by apply Is_true_true|done]. }
    rewrite Hnil in Hin. by apply elem_of_nil in Hin.
  - intros r' Hr'. by apply list_elem_of_filter in Hr' as [_ ?].
  - rewrite length_app. simpl. lia.
Qed.

Lemma frequency_matcher_nonempty_witness :
  (frequency_trigger "many flights" = true /\ rows (demo, @nil string).1 <> [])
  /\ exists st', frequency_matcher "many flights" (demo, []) = Ok st'
       /\ rows st'.1 <> []
       /\ (forall r, r ∈ rows st'.1 -> r ∈ rows (demo, @nil string).1)
       /\ length st'.2 = S (length (demo, @nil string).2).
Proof.
  split; [split; [by vm_compute|done]|].
  apply (frequency_matcher_nonempty "many flights" (demo, [])); [by vm_compute|done].
Defined.

(** ** The condition list *)

Section Conditions.

Lemma stages_untouched pl df b s :
  stages_of pl df b s -> untouched df (s_spend s).
Proof.
  intros Hs. destruct (stages_steps _ _ _ _ Hs)
    as (K1 & K2 & K3 & K4 & K5 & K6 & K7 & K8 & K9).
  assert (untouched df (df, [])) as H0.
  { split; [apply not_elem_of_nil | done]. }
  eauto 12 using step_untouched.
Qed.

Lemma stages_length pl df b s :
  stages_of pl df b s -> (length (s_spend s).2 <= 9)%nat.
Proof.
  intros Hs. destruct (stages_steps _ _ _ _ Hs)
    as (K1 & K2 & K3 & K4 & K5 & K6 & K7 & K8 & K9).
  apply step_length in K1, K2, K3, K4, K5, K6, K7, K8, K9.
  simpl in K1. lia.
Qed.

(** What a stage has reported is reported by the run. *)
Lemma stages_reported pl df b s c :
  stages_of pl df b s ->
  (c ∈ (s_tier s).2 \/ c ∈ (s_country s).2 \/ c ∈ (s_frequency s).2
   \/ c ∈ (s_inactive s).2 \/ c ∈ (s_active s).2 \/ c ∈ (s_cabin s).2
   \/ c ∈ (s_young s).2 \/ c ∈ (s_senior s).2 \/ c ∈ (s_spend s).2) ->
  c ∈ (finish (s_spend s)).2.
Proof.
  intros Hs Hc. destruct (stages_steps _ _ _ _ Hs)
    as (_ & K2 & K3 & K4 & K5 & K6 & K7 & K8 & K9).
  apply step_conditions in K2, K3, K4, K5, K6, K7, K8, K9.
  assert (c ∈ (s_spend s).2) as Hin.
  { destruct Hc as [Hc|[Hc|[Hc|[Hc|[Hc|[Hc|[Hc|[Hc|Hc]]]]]]]];
      eauto 12 using elem_of_prefix. }
  by rewrite (finish_conditions _ _ Hin).
Qed.

End Conditions.

(** X6. The returned condition list has between one and nine entries, and
    the sentinel "All customers (no filters applied)" is reported only
    alone and only together with the unchanged input table. *)
Theorem parse_segment_prompt_conditions p df b out conds :
  parse_segment_prompt p df b = Ok (out, conds) ->
  (1 <= length conds <= 9)%nat
  /\ (sentinel ∈ conds -> conds = [sentinel] /\ out = df).
Proof.
  intros H.
  destruct (parse_segment_prompt_stages _ _ _ _ _ H) as (s & Hs & -> & ->).
  pose proof (stages_untouched _ _ _ _ Hs) as [Hsent Hnil].
  pose proof (stages_length _ _ _ _ Hs) as Hlen.
  unfold finish. simpl.
  destruct ((s_spend s).2) as [|c cs] eqn:E.
  - split; [simpl; lia|]. intros _. split; [done|]. by apply Hnil.
  - split; [simpl in *; lia|]. intros Hin. by destruct Hsent.
Qed.

Lemma parse_segment_prompt_conditions_witness :
  parse_segment_prompt "hello" demo None = Ok (demo, [sentinel])
  /\ (1 <= length [sentinel] <= 9)%nat.
Proof.
  assert (parse_segment_prompt "hello" demo None = Ok (demo, [sentinel])) as H
    by (by vm_compute).
  split; [exact H|].
  exact (proj1 (parse_segment_prompt_conditions _ _ _ _ _ H)).
Defined.

(** ** Every returned row passes every filter that was applied *)

(** X7. When a tier keyword occurs in the request, every returned row has
    the tier of the first such keyword of the list, and the tier condition
    is the first condition reported. *)
Theorem tier_filter_sound p df b out conds t :
  parse_segment_prompt p df b = Ok (out, conds) ->
  List.find (fun t => contains t (lower p)) loyalty_tiers = Some t ->
  (forall r, r ∈ rows out -> lower (loyalty_tier (fields r)) = t)
  /\ head conds = Some ("Loyalty tier: " +:+ capitalize t).
Proof.
  intros H Hf.
  destruct (parse_segment_prompt_stages _ _ _ _ _ H) as (s & Hs & -> & ->).
  pose proof (stages_narrow _ _ _ _ Hs) as (_ & _ & _ & _ & _ & _ & _ & Hn).
  pose proof (stages_steps _ _ _ _ Hs)
    as (_ & K2 & K3 & K4 & K5 & K6 & K7 & K8 & K9).
  apply step_conditions in K2, K3, K4, K5, K6, K7, K8, K9.
  destruct Hs as (H1 & _).
  unfold tier_matcher in H1. rewrite tier_loop_find, Hf in H1.
  split.
  - apply (narrows_forall (fun c => lower (loyalty_tier c) = t) _ _ Hn).
    rewrite H1. simpl. intros r Hr. by apply list_elem_of_filter in Hr as [? _].
  - assert ((s_tier s).2 `prefix_of` (s_spend s).2) as [k Hk]
      by (do 7 (etrans; [eassumption|]); done).
    unfold finish. simpl. rewrite Hk, H1. by simpl.
Qed.

Lemma tier_filter_sound_witness :
  (parse_segment_prompt "silver or gold, many flights" demo None
     = Ok ({| columns := demo_columns;
              rows := [mk 4 "Gold" "USA" 60 true "Premium Economy"
                         (Date 1980 11 5)] |},
           ["Loyalty tier: Gold"; "Frequent flyers (≥55 flights)"])
   /\ List.find (fun t => contains t (lower "silver or gold, many flights"))
        loyalty_tiers = Some "gold")
  /\ head ["Loyalty tier: Gold"; "Frequent flyers (≥55 flights)"]
     = Some ("Loyalty tier: " +:+ capitalize "gold").
Proof.
  assert (parse_segment_prompt "silver or gold, many flights" demo None
     = Ok ({| columns := demo_columns;
              rows := [mk 4 "Gold" "USA" 60 true "Premium Economy"
                         (Date 1980 11 5)] |},
           ["Loyalty tier: Gold"; "Frequent flyers (≥55 flights)"])) as H1
    by (by vm_compute).
  assert (List.find (fun t => contains t (lower "silver or gold, many flights"))
        loyalty_tiers = Some "gold") as H2 by (by vm_compute).
  split; [done|].
  exact (proj2 (tier_filter_sound _ _ _ _ _ _ H1 H2)).
Defined.

(** X8. With "inactive" or "churned" in the request every returned row is
    inactive; with "active" and without "inactive" every returned row is
    active; the matching status condition is reported. *)
Theorem activity_filter_sound p df b out conds :
  parse_segment_prompt p df b = Ok (out, conds) ->
  (inactive_trigger (lower p) = true ->
     (forall r, r ∈ rows out -> is_active (fields r) = false)
     /\ "Status: Inactive" ∈ conds)
  /\ (active_trigger (lower p) = true ->
        (forall r, r ∈ rows out -> is_active (fields r) = true)
        /\ "Status: Active" ∈ conds).
Proof.
  intros H.
  destruct (parse_segment_prompt_stages _ _ _ _ _ H) as (s & Hs & -> & ->).
  pose proof (stages_narrow _ _ _ _ Hs) as (_ & _ & _ & Hn5 & Hn4 & _).
  pose proof Hs as (_ & _ & _ & H4 & H5 & _).
  split; intros Ht.
  - unfold inactive_matcher in H4. rewrite Ht in H4. split.
    + apply (narrows_forall (fun c => is_active c = false) _ _ Hn4).
      rewrite H4. simpl. intros r Hr.
      by apply list_elem_of_filter in Hr as [? _].
    + apply (stages_reported _ _ _ _ _ Hs). do 3 right. left.
      rewrite H4. simpl. set_solver.
  - unfold active_matcher in H5. rewrite Ht in H5. split.
    + apply (narrows_forall (fun c => is_active c = true) _ _ Hn5).
      rewrite H5. simpl. intros r Hr.
      by apply list_elem_of_filter in Hr as [? _].
    + apply (stages_reported _ _ _ _ _ Hs). do 4 right. left.
      rewrite H5. simpl. set_solver.
Qed.

Lemma activity_filter_sound_witness :
  parse_segment_prompt "churned gold members" demo None
    = Ok ({| columns := demo_columns;
             rows := [mk 2 "Gold" "USA" 5 false "Business" (Date 1950 1 30)] |},
          ["Loyalty tier: Gold"; "Status: Inactive"])
  /\ (inactive_trigger (lower "churned gold members") = true ->
      "Status: Inactive" ∈ ["Loyalty tier: Gold"; "Status: Inactive"]).
Proof.
  assert (parse_segment_prompt "churned gold members" demo None
    = Ok ({| columns := demo_columns;
             rows := [mk 2 "Gold" "USA" 5 false "Business" (Date 1950 1 30)] |},
          ["Loyalty tier: Gold"; "Status: Inactive"])) as H by (by vm_compute).
  split; [exact H|]. intros Ht.
  exact (proj2 (proj1 (activity_filter_sound _ _ _ _ _ H) Ht)).
Defined.

(** X9. Cabin words are tried in the order economy, business, first,
    premium: every returned row has the first one that occurs in the
    request inside its lower-cased preferred class, and that class is
    reported; a request with "economy" in it (such as "premium economy") is
    always restricted on "economy". *)
Theorem cabin_filter_sound p df b out conds c :
  parse_segment_prompt p df b = Ok (out, conds) ->
  List.find (fun c => contains c (lower p)) cabin_classes = Some c ->
  (forall r, r ∈ rows out ->
     contains c (lower (preferred_class (fields r))) = true)
  /\ ("Preferred class: " +:+ capitalize c) ∈ conds
  /\ (contains "economy" (lower p) = true -> c = "economy").
Proof.
  intros H Hf.
  destruct (parse_segment_prompt_stages _ _ _ _ _ H) as (s & Hs & -> & ->).
  pose proof (stages_narrow _ _ _ _ Hs) as (_ & _ & Hn6 & _).
  pose proof Hs as (_ & _ & _ & _ & _ & H6 & _).
  unfold cabin_matcher in H6. rewrite cabin_loop_find, Hf in H6.
  split; [|split].
  - apply (narrows_forall
             (fun x => contains c (lower (preferred_class x)) = true) _ _ Hn6).
    rewrite H6. simpl. intros r Hr.
    apply list_elem_of_filter in Hr as [Hc _]. by apply Is_true_true.
  - apply (stages_reported _ _ _ _ _ Hs). do 5 right. left.
    rewrite H6. simpl. set_solver.
  - intros He. unfold cabin_classes in Hf. simpl in Hf. rewrite He in Hf.
    by injection Hf.
Qed.

Lemma cabin_filter_sound_witness :
  (parse_segment_prompt "Premium Economy travellers" demo None
     = Ok ({| columns := demo_columns;
              rows := [mk 1 "Gold" "USA" 50 true "Economy" (Date 1990 4 12);
                       mk 4 "Gold" "USA" 60 true "Premium Economy"
                         (Date 1980 11 5)] |},
           ["Preferred class: Economy"])
   /\ List.find (fun c => contains c (lower "Premium Economy travellers"))
        cabin_classes = Some "economy")
  /\ ("Preferred class: " +:+ capitalize "economy") ∈ ["Preferred class: Economy"].
Proof.
  assert (parse_segment_prompt "Premium Economy travellers" demo None
     = Ok ({| columns := demo_columns;
              rows := [mk 1 "Gold" "USA" 50 true "Economy" (Date 1990 4 12);
                       mk 4 "Gold" "USA" 60 true "Premium Economy"
                         (Date 1980 11 5)] |},
           ["Preferred class: Economy"])) as H1 by (by vm_compute).
  assert (List.find (fun c => contains c (lower "Premium Economy travellers"))
        cabin_classes = Some "economy") as H2 by (by vm_compute).
  split; [done|].
  exact (proj1 (proj2 (cabin_filter_sound _ _ _ _ _ _ H1 H2))).
Defined.

(** X10. With "young" or "millennial" in the request every returned row
    has a date of birth with a year from 1986 to 2001 (age 25 to 40 by year
    subtraction from 2026); rows with a missing date are not returned. *)
Theorem young_filter_sound p df b out conds :
  parse_segment_prompt p df b = Ok (out, conds) ->
  young_trigger (lower p) = true ->
  (forall r, r ∈ rows out ->
     exists y m d, date_of_birth (fields r) = Date y m d /\ 1986 <= y <= 2001)
  /\ "Age: 25-40" ∈ conds.
Proof.
  intros H Ht.
  destruct (parse_segment_prompt_stages _ _ _ _ _ H) as (s & Hs & -> & ->).
  pose proof (stages_narrow _ _ _ _ Hs) as (_ & Hn7 & _).
  pose proof Hs as (_ & _ & _ & _ & _ & _ & H7 & _).
  unfold young_matcher in H7. rewrite Ht in H7.
  destruct (assign_age (s_cabin s).1) as [df7|e] eqn:E7; simpl in H7; [|done].
  injection H7 as H7. split.
  - apply (narrows_forall
             (fun c => exists y m d, date_of_birth c = Date y m d
                                     /\ 1986 <= y <= 2001) _ _ Hn7).
    rewrite <- H7. simpl. intros r Hr.
    apply list_elem_of_filter in Hr as [Hp Hr].
    pose proof (assign_age_consistent _ _ E7) as Hall.
    rewrite Forall_forall in Hall. destruct (Hall r Hr) as (a & Ha & Hf).
    apply Is_true_true, andb_prop in Hp as [Hge Hle].
    unfold age_ge, age_le, age_of in *. rewrite Ha in Hge, Hle.
    destruct (date_of_birth (fields r)) as [y m d| |]; [|by inversion Hf; subst..].
    inversion Hf; subst. apply Z.leb_le in Hge, Hle.
    exists y, m, d. split; [done|lia].
  - apply (stages_reported _ _ _ _ _ Hs). do 6 right. left.
    rewrite <- H7. simpl. set_solver.
Qed.

Lemma young_filter_sound_witness :
  (parse_segment_prompt "millennial gold members" demo None
     = Ok ({| columns := demo_columns ++ ["age"];
              rows := [{| fields := fields (mk 1 "Gold" "USA" 50 true "Economy"
                                              (Date 1990 4 12));
                          age := Some (Num 36) |}] |},
           ["Loyalty tier: Gold"; "Age: 25-40"])
   /\ young_trigger (lower "millennial gold members") = true)
  /\ "Age: 25-40" ∈ ["Loyalty tier: Gold"; "Age: 25-40"].
Proof.
  assert (parse_segment_prompt "millennial gold members" demo None
     = Ok ({| columns := demo_columns ++ ["age"];
              rows := [{| fields := fields (mk 1 "Gold" "USA" 50 true "Economy"
                                              (Date 1990 4 12));
                          age := Some (Num 36) |}] |},
           ["Loyalty tier: Gold"; "Age: 25-40"])) as H1 by (by vm_compute).
  assert (young_trigger (lower "millennial gold members") = true) as H2
    by (by vm_compute).
  split; [done|].
  exact (proj2 (young_filter_sound _ _ _ _ _ H1 H2)).
Defined.

(** ** The country scan *)

Section Country.

Lemma unique_elem (l : list string) x : x ∈ unique l <-> x ∈ l.
Proof.
  induction l as [|y l IH]; simpl; [done|].
  rewrite !elem_of_cons, list_elem_of_filter, IH.
  destruct (decide (x = y)); tauto.
Qed.

Lemma unique_NoDup (l : list string) : NoDup (unique l).
Proof.
  induction l as [|y l IH]; simpl; [constructor|].
  constructor.
  - rewrite list_elem_of_filter. by intros [? _].
  - by apply NoDup_filter.
Qed.

Lemma find_some_elem {A} (f : A -> bool) (l : list A) x :
  List.find f l = Some x -> x ∈ l /\ f x = true.
Proof.
  intros H. apply find_some in H as [Hin Hf]. split; [|done].
  by apply list_elem_of_In.
Qed.

(** The country the scan stops at is the country of a row of the table. *)
Lemma country_found_row pl df c :
  List.find (fun c => contains (lower c) pl)
            (unique ((country ∘ fields) <$> rows df)) = Some c ->
  exists r, r ∈ rows df /\ country (fields r) = c.
Proof.
  intros H. apply find_some_elem in H as [Hin _].
  apply unique_elem, list_elem_of_fmap in Hin as (r & -> & Hr). eauto.
Qed.

End Country.

(** X11. The country matcher never empties a table: the country it
    restricts to is taken from the rows of the table itself, so a table
    with a row still has a row afterwards; and the distinct countries it
    scans have no repetition. *)
Theorem country_matcher_nonempty pl st :
  rows st.1 <> [] ->
  rows (country_matcher pl st).1 <> []
  /\ NoDup (unique ((country ∘ fields) <$> rows st.1)).
Proof.
  intros Hne. split; [|apply unique_NoDup].
  unfold country_matcher. destruct (country_trigger pl); [|done].
  rewrite country_loop_find.
  destruct (List.find _ _) as [c|] eqn:Hf; [|done].
  destruct (country_found_row _ _ _ Hf) as (r & Hr & Hc).
  simpl. intros Hnil.
  assert (r ∈ filter (fun r => lower (country (fields r)) = lower c)
                (rows st.1)) as Hin.
  { apply list_elem_of_filter. split; [by rewrite Hc|done]. }
  rewrite Hnil in Hin. by apply elem_of_nil in Hin.
Qed.

Lemma country_matcher_nonempty_witness :
  rows (demo, @nil string).1 <> []
  /\ rows (country_matcher "members in the uk" (demo, [])).1 <> [].
Proof.
  split; [done|].
  exact (proj1 (country_matcher_nonempty "members in the uk" (demo, [])
                  ltac:(done))).
Defined.

(** X12. When the country scan finds a country of the table left by the
    tier matcher, every returned row has that country (compared in lower
    case) and the condition names the country as spelled in the table. *)
Theorem country_filter_sound p df b out conds c :
  parse_segment_prompt p df b = Ok (out, conds) ->
  country_trigger (lower p) = true ->
  List.find (fun c => contains (lower c) (lower p))
    (unique ((country ∘ fields) <$> rows (tier_matcher (lower p) (df, [])).1))
    = Some c ->
  (forall r, r ∈ rows out -> lower (country (fields r)) = lower c)
  /\ ("Country: " +:+ c) ∈ conds
  /\ (exists r, r ∈ rows df /\ country (fields r) = c).
Proof.
  intros H Ht Hf.
  destruct (parse_segment_prompt_stages _ _ _ _ _ H) as (s & Hs & -> & ->).
  pose proof (stages_narrow _ _ _ _ Hs) as (_ & _ & _ & _ & _ & _ & Hn2 & _).
  pose proof Hs as (H1 & H2 & _).
  unfold country_matcher in H2. rewrite Ht, country_loop_find, H1, Hf in H2.
  split; [|split].
  - apply (narrows_forall (fun x => lower (country x) = lower c) _ _ Hn2).
    rewrite H2. simpl. intros r Hr.
    by apply list_elem_of_filter in Hr as [? _].
  - apply (stages_reported _ _ _ _ _ Hs). right. left.
    rewrite H2. simpl. set_solver.
  - destruct (country_found_row _ _ _ Hf) as (r & Hr & Hc).
    destruct (narrows_elem _ df r (tier_matcher_narrows _ (df, [])) Hr)
      as (r0 & Hr0 & Heq).
    exists r0. by rewrite <- Heq.
Qed.

Lemma country_filter_sound_witness :
  (parse_segment_prompt "frequent flyers from the UK" demo None
     = Ok ({| columns := demo_columns;
              rows := [mk 3 "Platinum" "UK" 80 true "First" (Date 1995 7 2)] |},
           ["Country: UK"; "Frequent flyers (≥80 flights)"])
   /\ country_trigger (lower "frequent flyers from the UK") = true
   /\ List.find (fun c => contains (lower c) (lower "frequent flyers from the UK"))
        (unique ((country ∘ fields) <$>
           rows (tier_matcher (lower "frequent flyers from the UK")
                   (demo, [])).1)) = Some "UK")
  /\ ("Country: " +:+ "UK") ∈ ["Country: UK"; "Frequent flyers (≥80 flights)"].
Proof.
  assert (parse_segment_prompt "frequent flyers from the UK" demo None
     = Ok ({| columns := demo_columns;
              rows := [mk 3 "Platinum" "UK" 80 true "First" (Date 1995 7 2)] |},
           ["Country: UK"; "Frequent flyers (≥80 flights)"])) as H1
    by (by vm_compute).
  assert (country_trigger (lower "frequent flyers from the UK") = true) as H2
    by (by vm_compute).
  assert (List.find
            (fun c => contains (lower c) (lower "frequent flyers from the UK"))
            (unique ((country ∘ fields) <$>
               rows (tier_matcher (lower "frequent flyers from the UK")
                       (demo, [])).1)) = Some "UK") as H3 by (by vm_compute).
  split; [done|].
  exact (proj1 (proj2 (country_filter_sound _ _ _ _ _ _ H1 H2 H3))).
Defined.

(** ** High spenders *)

Section HighSpenders.

(** The spend series has an entry exactly for the ids with a completed
    booking. *)
Lemma customer_spend_some bookings k :
  completed_by k bookings <> [] ->
  customer_spend bookings !! k = Some (completed_total k bookings).
Proof.
  intros Hne. rewrite customer_spend_lookup. by rewrite decide_False.
Qed.

Lemma customer_spend_inv bookings k s :
  customer_spend bookings !! k = Some s ->
  completed_by k bookings <> [] /\ s = completed_total k bookings.
Proof.
  rewrite customer_spend_lookup. case_decide; [done|]. by intros [= <-].
Qed.

Lemma completed_nil_high_spenders bookings :
  completed bookings = [] -> high_spenders bookings = ∅.
Proof.
  intros Hc. apply set_eq. intros k. rewrite elem_of_high_spenders.
  split; [|by intros ?%not_elem_of_empty].
  intros (s & Hs & _). apply customer_spend_inv in Hs as [Hne _].
  unfold completed_by in Hne. by rewrite Hc in Hne.
Qed.

End HighSpenders.

(** X13. A customer whose completed total is the largest is always a high
    spender, and every high spender has a completed booking: with at least
    one completed booking the set of high spenders is not empty. *)
Theorem high_spenders_top bookings k :
  completed_by k bookings <> [] ->
  (forall k', completed_by k' bookings <> [] ->
     completed_total k' bookings <= completed_total k bookings) ->
  k ∈ high_spenders bookings
  /\ (forall j, j ∈ high_spenders bookings -> completed_by j bookings <> []).
Proof.
  intros Hk Hmax. split.
  - apply elem_of_high_spenders. exists (completed_total k bookings).
    split; [by apply customer_spend_some|].
    destruct (quantile75_between ((map_to_list (customer_spend bookings)).*2))
      as (t & lo & hi & Hq & _ & Hhi & _ & Hle).
    { intros Hnil. apply fmap_nil_inv, map_to_list_empty_iff in Hnil.
      pose proof (customer_spend_some _ _ Hk) as Hs.
      by rewrite Hnil, lookup_empty in Hs. }
    rewrite Hq. simpl. apply Qle_bool_iff.
    apply list_elem_of_fmap in Hhi as ([k' s] & -> & Hin).
    apply elem_of_map_to_list, customer_spend_inv in Hin as [Hne ->].
    simpl in Hle.
    assert (inject_Z (completed_total k' bookings)
            <= inject_Z (completed_total k bookings))%Q
      by (rewrite <- Zle_Qle; by apply Hmax).
    lra.
  - intros j Hj. apply elem_of_high_spenders in Hj as (s & Hs & _).
    by apply customer_spend_inv in Hs as [? _].
Qed.

Lemma high_spenders_top_witness :
  completed_by 1 demo_bookings <> []
  /\ 1 ∈ high_spenders demo_bookings.
Proof.
  split; [by vm_compute|].
  apply (high_spenders_top demo_bookings 1); [by vm_compute|].
  intros k' Hk'.
  destruct (decide (k' = 1)) as [->|?]; [done|].
  destruct (decide (k' = 2)) as [->|?]; [by vm_compute|].
  destruct (decide (k' = 4)) as [->|?]; [by vm_compute|].
  exfalso. apply Hk'. unfold completed_by, completed, demo_bookings.
  simpl. repeat (rewrite ?filter_cons, ?filter_nil; simpl;
                 try case_decide; simplify_eq); done.
Defined.

(** X14. When the bookings table has no completed booking, the spend
    matcher of a request with "spend" adds no exception and leaves no
    customer: the run raises exactly what the customer-side matchers raise,
    and otherwise returns their columns with no row and their conditions
    followed by "High spenders (top 25%)" (the quantile of the empty spend
    series is NaN and no id compares at or above it). *)
Theorem spend_without_completed p df bookings :
  completed bookings = [] ->
  contains "spend" (lower p) = true ->
  parse_segment_prompt p df (Some bookings) =
    match customer_side (lower p) df with
    | Ok st => Ok ({| columns := columns st.1; rows := [] |},
                   st.2 ++ ["High spenders (top 25%)"])
    | Raise e => Raise e
    end.
Proof.
  intros Hc Hs. unfold parse_segment_prompt.
  destruct (customer_side (lower p) df) as [st|e]; simpl; [|done].
  unfold spend_matcher. rewrite Hs.
  assert (select (fun r => customer_id (fields r) ∈ high_spenders bookings) st.1
          = {| columns := columns st.1; rows := [] |}) as Hsel.
  { unfold select. f_equal. induction (rows st.1) as [|r rs IH]; [done|].
    rewrite filter_cons, IH. rewrite decide_False; [done|].
    rewrite (completed_nil_high_spenders _ Hc). apply not_elem_of_empty. }
  unfold finish. cbn [fst snd]. rewrite Hsel. by destruct (st.2).
Qed.

Lemma spend_without_completed_witness :
  (completed [mkBooking 1 "Cancelled" 70; mkBooking 4 "Pending" 30] = []
   /\ contains "spend" (lower "Gold members by spend") = true)
  /\ parse_segment_prompt "Gold members by spend" demo
       (Some [mkBooking 1 "Cancelled" 70; mkBooking 4 "Pending" 30])
     = Ok ({| columns := demo_columns; rows := [] |},
           ["Loyalty tier: Gold"; "High spenders (top 25%)"])
  /\ parse_segment_prompt "diamond frequent spend" demo
       (Some [mkBooking 1 "Cancelled" 70; mkBooking 4 "Pending" 30])
     = Raise ValueError_nan_to_int.
Proof.
  assert (completed [mkBooking 1 "Cancelled" 70; mkBooking 4 "Pending" 30] = [])
    as H1 by (by vm_compute).
  assert (contains "spend" (lower "Gold members by spend") = true) as H2
    by (by vm_compute).
  split; [done|]. split.
  - rewrite (spend_without_completed "Gold members by spend" demo _ H1 H2).
    by vm_compute.
  - rewrite (spend_without_completed "diamond frequent spend" demo _ H1);
      by vm_compute.
Defined.

(** * The pages of the application *)

(** Exceptions raised by the code of the pages. *)
Inductive page_error : Type :=
  | ZeroDivisionError
  | UnboundLocalError (name : string)
  | IndexError
  | CsvError (path : string).

Inductive outcome (A : Type) : Type :=
  | Returns (a : A)
  | Fails (e : page_error).
Arguments Returns {A} a.
Arguments Fails {A} e.

(** ** [load_data] *)

Definition files : list string :=
  ["dim_date"; "dim_time"; "dim_airport"; "dim_aircraft";
   "dim_airline"; "dim_customer"; "dim_route";
   "fact_flight"; "fact_booking"; "fact_passenger_journey"].

(** [Path('data') / f'{file}.csv'] *)
Definition csv_path (file : string) : string := "data/" +:+ file +:+ ".csv".

(** The labels of the data explorer and the tables they stand for, in the
    order of the dictionary. *)
Definition table_names : list (string * string) :=
  [("Flights", "fact_flight"); ("Bookings", "fact_booking");
   ("Passenger Journeys", "fact_passenger_journey");
   ("Customers", "dim_customer"); ("Airlines", "dim_airline");
   ("Airports", "dim_airport"); ("Aircraft", "dim_aircraft");
   ("Routes", "dim_route"); ("Dates", "dim_date"); ("Times", "dim_time")].

(** [d[key]] on a dictionary given by its items. *)
Fixpoint dict_get (d : list (string * string)) (key : string) : option string :=
  match d with
  | [] => None
  | (k, v) :: d' => if decide (k = key) then Some v else dict_get d' key
  end.

(** What the data explorer does with the selected label. *)
Inductive explorer_view (Table : Type) : Type :=
  | Shown (table_key : string) (df : Table)
  | NotFound (selected_table : string)
  | KeyError (selected_table : string).
Arguments Shown {Table} table_key df.
Arguments NotFound {Table} selected_table.
Arguments KeyError {Table} selected_table.

Section LoadData.

(** The file system maps the paths that exist to their contents;
    [pd.read_csv] parses a content or raises. *)
Context {Content Table : Type}.
Variable read_csv : string -> Content -> outcome Table.

(** The loop [for file in files: if csv_path.exists(): data[file] = ...]. *)
Fixpoint load_loop (fs : gmap string Content) (todo : list string)
    (data : gmap string Table) : outcome (gmap string Table) :=
  match todo with
  | [] => Returns data
  | file :: todo' =>
      match fs !! csv_path file with
      | Some content =>
          match read_csv (csv_path file) content with
          | Returns df => load_loop fs todo' (<[file := df]> data)
          | Fails e => Fails e
          end
      | None => load_loop fs todo' data
      end
  end.

Definition load_data (fs : gmap string Content) : outcome (gmap string Table) :=
  load_loop fs files ∅.

(** [table_key = table_names[selected_table]; if table_key in data: ...] *)
Definition explore (data : gmap string Table) (selected_table : string)
    : explorer_view Table :=
  match dict_get table_names selected_table with
  | None => KeyError selected_table
  | Some table_key =>
      match data !! table_key with
      | Some df => Shown table_key df
      | None => NotFound selected_table
      end
  end.

Lemma load_loop_lookup fs todo data data' k :
  load_loop fs todo data = Returns data' ->
  data' !! k =
    if decide (k ∈ todo) then
      match fs !! csv_path k with
      | Some content =>
          match read_csv (csv_path k) content with
          | Returns df => Some df
          | Fails _ => None
          end
      | None => data !! k
      end
    else data !! k.
Proof.
  revert data. induction todo as [|file todo IH]; intros data H; simpl in H.
  - injection H as <-. by rewrite decide_False by apply not_elem_of_nil.
  - destruct (fs !! csv_path file) as [content|] eqn:Hf.
    + destruct (read_csv (csv_path file) content) as [df|e] eqn:Hr; [|done].
      rewrite (IH _ H). destruct (decide (k = file)) as [->|Hne].
      * rewrite (decide_True (P := file ∈ file :: todo)) by (by left).
        rewrite Hf, Hr, lookup_insert_eq. by case_decide.
      * rewrite lookup_insert_ne by done.
        destruct (decide (k ∈ todo)) as [Hin|Hnin].
        -- by rewrite decide_True by (by right).
        -- rewrite decide_False; [done|].
           intros [?|?]%elem_of_cons; done.
    + rewrite (IH _ H). destruct (decide (k = file)) as [->|Hne].
      * rewrite (decide_True (P := file ∈ file :: todo)) by (by left).
        rewrite Hf. by case_decide.
      * destruct (decide (k ∈ todo)) as [Hin|Hnin].
        -- by rewrite decide_True by (by right).
        -- rewrite decide_False; [done|].
           intros [?|?]%elem_of_cons; done.
Qed.

Lemma load_loop_fails fs todo data e :
  load_loop fs todo data = Fails e ->
  exists file content,
    file ∈ todo /\ fs !! csv_path file = Some content
    /\ read_csv (csv_path file) content = Fails e.
Proof.
  revert data. induction todo as [|file todo IH]; intros data H; simpl in H.
  - done.
  - destruct (fs !! csv_path file) as [content|] eqn:Hf.
    + destruct (read_csv (csv_path file) content) as [df|e'] eqn:Hr.
      * destruct (IH _ H) as (f & c & ? & ? & ?). exists f, c.
        split; [by right|done].
      * injection H as <-. exists file, content. split; [by left|done].
    + destruct (IH _ H) as (f & c & ? & ? & ?). exists f, c.
      split; [by right|done].
Qed.

(** X16. [load_data] skips the files that do not exist: when it returns,
    the dictionary has an entry exactly for the listed tables whose CSV
    file exists, holding what [read_csv] made of that file; it fails only
    with the error of [read_csv] on an existing listed file, and returns
    whenever every existing listed file can be read. *)
Theorem load_data_entries fs :
  (forall data, load_data fs = Returns data ->
     forall k df,
       data !! k = Some df <->
       k ∈ files /\ exists content, fs !! csv_path k = Some content
                     /\ read_csv (csv_path k) content = Returns df)
  /\ (forall e, load_data fs = Fails e ->
        exists file content,
          file ∈ files /\ fs !! csv_path file = Some content
          /\ read_csv (csv_path file) content = Fails e)
  /\ ((forall file content,
         file ∈ files -> fs !! csv_path file = Some content ->
         exists df, read_csv (csv_path file) content = Returns df) ->
      exists data, load_data fs = Returns data).
Proof.
  split; [|split].
  - intros data H k df. unfold load_data in H.
    rewrite (load_loop_lookup _ _ _ _ k H), lookup_empty.
    case_decide as Hin.
    + destruct (fs !! csv_path k) as [content|] eqn:Hf.
      * destruct (read_csv (csv_path k) content) as [df'|e] eqn:Hr.
        -- split; [intros [= <-]; eauto|].
           intros (_ & c & [= <-] & Hc). by rewrite Hr in Hc; injection Hc as <-.
        -- split; [done|]. intros (_ & c & [= <-] & Hc). by rewrite Hr in Hc.
      * split; [done|]. by intros (_ & c & ? & _).
    + split; [done|]. by intros [? _].
  - intros e H. by apply load_loop_fails in H.
  - intros Hall. destruct (load_data fs) as [data|e] eqn:E; [eauto|].
    apply load_loop_fails in E as (file & content & Hin & Hf & Hr).
    destruct (Hall _ _ Hin Hf) as [df Hdf]. by rewrite Hr in Hdf.
Qed.

(** X17. The data explorer and [load_data] agree on the tables: every
    label stands for a listed table and every listed table has a label;
    after a successful load, a selected label shows its table exactly when
    the table's CSV file exists, and reports "not found" otherwise; a label
    of the dictionary never raises [KeyError]. *)
Theorem explore_loaded fs data label table_key :
  load_data fs = Returns data ->
  (label, table_key) ∈ table_names ->
  table_key ∈ files
  /\ (match fs !! csv_path table_key with
      | Some content =>
          exists df, read_csv (csv_path table_key) content = Returns df
                     /\ explore data label = Shown table_key df
      | None => explore data label = NotFound label
      end)
  /\ (forall file, file ∈ files -> exists l, (l, file) ∈ table_names).
Proof.
  intros H Hin.
  assert (table_key ∈ files /\ dict_get table_names label = Some table_key)
    as [Hk Hget].
  { unfold table_names in *.
    repeat (apply elem_of_cons in Hin as [[= -> ->]|Hin];
            [split; [apply (bool_decide_unpack _); by vm_compute|done]|]).
    by apply elem_of_nil in Hin. }
  split; [done|]. split.
  - unfold explore. rewrite Hget. unfold load_data in H.
    rewrite (load_loop_lookup _ _ _ _ table_key H), lookup_empty.
    rewrite decide_True by done.
    destruct (fs !! csv_path table_key) as [content|] eqn:Hf; [|done].
    destruct (read_csv (csv_path table_key) content) as [df|e] eqn:Hr; [eauto|].
    exfalso.
    assert (forall todo d, table_key ∈ todo ->
              load_loop fs todo d <> Returns data) as Hno.
    { induction todo as [|f todo IH]; intros d Hd Hl; simpl in Hl.
      - by apply elem_of_nil in Hd.
      - destruct (decide (f = table_key)) as [->|Hne].
        + by rewrite Hf, Hr in Hl.
        + apply elem_of_cons in Hd as [?|Hd]; [done|].
          destruct (fs !! csv_path f) as [c|]; [|by eapply IH].
          destruct (read_csv (csv_path f) c); [by eapply IH|done]. }
    by eapply Hno.
  - intros file Hfile.
    assert (Forall (fun f => Exists (fun lk => lk.2 = f) table_names) files)
      as Hall by (apply (bool_decide_unpack _); by vm_compute).
    rewrite Forall_forall in Hall. apply Hall in Hfile.
    apply Exists_exists in Hfile as ([l k] & Hlk & Heq). simpl in Heq.
    exists l. by rewrite <- Heq.
Qed.

End LoadData.

Lemma explore_loaded_witness :
  let read := fun (_ : string) (c : string) => Returns (String.length c) in
  let fs : gmap string string := {[ "data/dim_customer.csv" := "id,tier" ]} in
  (load_data read fs = Returns {[ "dim_customer" := 7%nat ]}
   /\ ("Customers", "dim_customer") ∈ table_names)
  /\ explore ({[ "dim_customer" := 7%nat ]} : gmap string nat) "Customers"
     = Shown "dim_customer" 7%nat.
Proof.
  intros read fs.
  assert (load_data read fs = Returns {[ "dim_customer" := 7%nat ]}) as H1
    by (by vm_compute).
  assert (("Customers", "dim_customer") ∈ table_names) as H2
    by (apply (bool_decide_unpack _); by vm_compute).
  split; [done|].
  destruct (explore_loaded read fs _ _ _ H1 H2) as (_ & Hv & _).
  assert (fs !! csv_path "dim_customer" = Some "id,tier") as Hf by (by vm_compute).
  rewrite Hf in Hv. destruct Hv as (df & Hr & Hs).
  injection Hr as <-. exact Hs.
Defined.

(** ** The revenue page *)

(** A row of the bookings table as the revenue page reads it. *)
Record RevenueRow : Type := mkRevenueRow {
  booking : Booking;
  days_before_departure : Z;
  cabin_class : string;
  booking_channel : string
}.

(** [bookings[bookings['booking_status'] == 'Completed']] *)
Definition completed_rows (bookings : list RevenueRow) : list RevenueRow :=
  filter (fun r => booking_status (booking r) = "Completed") bookings.

(** [(len(completed) / len(bookings)) * 100]: true division of two
    integers, which raises on a zero divisor. *)
Definition conversion_rate (bookings : list RevenueRow) : outcome Q :=
  if decide (length bookings = 0%nat) then Fails ZeroDivisionError
  else Returns (inject_Z (Z.of_nat (length (completed_rows bookings)))
                / inject_Z (Z.of_nat (length bookings)) * 100)%Q.

(** X19. The conversion rate of the revenue page raises
    [ZeroDivisionError] exactly when the bookings table has no row;
    otherwise it is a percentage between 0 and 100. *)
Theorem conversion_rate_bounds bookings :
  (conversion_rate bookings = Fails ZeroDivisionError <-> bookings = [])
  /\ (forall r, conversion_rate bookings = Returns r -> (0 <= r)%Q /\ (r <= 100)%Q).
Proof.
  unfold conversion_rate. split.
  - case_decide as Hl; [|by split; [|intros ->]].
    split; [|done]. intros _. by apply nil_length_inv.
  - intros r. case_decide as Hl; [done|]. intros [= <-].
    pose proof (length_filter
      (fun r => booking_status (booking r) = "Completed") bookings) as Hle.
    fold (completed_rows bookings) in Hle.
    set (a := Z.of_nat (length (completed_rows bookings))) in *.
    set (n := Z.of_nat (length bookings)) in *.
    assert (0 <= a <= n) as Ha by (subst a n; lia).
    assert (0 < n) as Hn by (subst n; lia).
    assert (0 < inject_Z n)%Q as HnQ
      by (change 0%Q with (inject_Z 0); by rewrite <- Zlt_Qlt).
    assert (0 <= inject_Z a)%Q as Ha0
      by (change 0%Q with (inject_Z 0); rewrite <- Zle_Qle; lia).
    assert (inject_Z a <= inject_Z n)%Q as Han by (rewrite <- Zle_Qle; lia).
    assert (0 <= inject_Z a / inject_Z n)%Q as H0
      by (apply Qle_shift_div_l; [done|lra]).
    assert (inject_Z a / inject_Z n <= 1)%Q as H1
      by (apply Qle_shift_div_r; [done|lra]).
    split; lra.
Qed.

(** ** The flight analysis page *)

Record Airline : Type := mkAirline {
  airline_id : Z;
  airline_name : string
}.

Record Flight : Type := mkFlight {
  flight_airline_id : Z;
  flight_status : string;
  is_cancelled : bool
}.

(** [['All'] + sorted(series.unique().tolist())] *)
Definition select_options (values : list string) : list string :=
  "All" :: merge_sort String.le (unique values).

(** The filters of the page.  A select box returns one of the options it
    is given; [pick_airline] and [pick_status] stand for the user's choice.
    [selected_airline] is assigned only when the airline table was loaded,
    and is read in any case. *)
Definition flight_filters (airlines : option (list Airline))
    (flights : list Flight) (pick_airline pick_status : list string -> string)
    (cancelled_only : bool) : outcome (list Flight) :=
  let selected_airline :=
    match airlines with
    | Some a => Some (pick_airline (select_options (airline_name <$> a)))
    | None => None
    end in
  let selected_status := pick_status (select_options (flight_status <$> flights)) in
  let filtered_flights := flights in
  match selected_airline with
  | None => Fails (UnboundLocalError "selected_airline")
  | Some selected =>
      let by_airline :=
        match airlines with
        | Some a =>
            if decide (selected <> "All") then
              match filter (fun x => airline_name x = selected) a with
              | [] => Fails IndexError
              | x :: _ =>
                  Returns (filter (fun f => flight_airline_id f = airline_id x)
                             filtered_flights)
              end
            else Returns filtered_flights
        | None => Returns filtered_flights
        end in
      match by_airline with
      | Fails e => Fails e
      | Returns filtered_flights =>
          let filtered_flights :=
            if decide (selected_status <> "All") then
              filter (fun f => flight_status f = selected_status) filtered_flights
            else filtered_flights in
          let filtered_flights :=
            if cancelled_only then
              filter (fun f => is_cancelled f = true) filtered_flights
            else filtered_flights in
          Returns filtered_flights
      end
  end.

Example flight_filters_ex :
  flight_filters
    (Some [mkAirline 1 "Delta"; mkAirline 2 "Air France"])
    [mkFlight 1 "On-Time" false; mkFlight 2 "Delayed" false;
     mkFlight 1 "Cancelled" true; mkFlight 2 "On-Time" false]
    (fun options => default "All" (options !! 2%nat))
    (fun options => default "All" (options !! 0%nat))
    false
  = Returns [mkFlight 1 "On-Time" false; mkFlight 1 "Cancelled" true]
  /\ select_options ["Delta"; "Air France"; "Delta"] = ["All"; "Air France"; "Delta"].
Proof. by vm_compute. Qed.

Section FlightPage.

Lemma select_options_elem values x :
  x ∈ select_options values <-> x = "All" \/ x ∈ values.
Proof.
  unfold select_options.
  by rewrite elem_of_cons, merge_sort_Permutation, unique_elem.
Qed.

End FlightPage.

(** X22. Without the airline table the flight analysis page fails with
    [UnboundLocalError] whatever the flights and the choices are; with the
    airline table, and choices taken from the select boxes, it never fails:
    an airline chosen from the options is always found by name. *)
Theorem flight_filters_errors airlines flights pick_airline pick_status
    cancelled_only :
  (forall options, options <> [] -> pick_airline options ∈ options) ->
  match airlines with
  | None =>
      flight_filters None flights pick_airline pick_status cancelled_only
      = Fails (UnboundLocalError "selected_airline")
  | Some a =>
      exists out,
        flight_filters (Some a) flights pick_airline pick_status cancelled_only
        = Returns out
  end.
Proof.
  intros Hpick. destruct airlines as [a|]; [|done].
  unfold flight_filters.
  set (selected := pick_airline (select_options (airline_name <$> a))).
  case_decide as Hall; [|eauto].
  assert (selected ∈ select_options (airline_name <$> a)) as Hin
    by (by apply Hpick).
  apply select_options_elem in Hin as [?|Hin]; [done|].
  apply list_elem_of_fmap in Hin as (x & Hx & Hxa).
  destruct (filter (fun x => airline_name x = selected) a) as [|y ys] eqn:Hf;
    [|eauto].
  assert (x ∈ filter (fun x => airline_name x = selected) a) as Hin
    by (by apply list_elem_of_filter).
  rewrite Hf in Hin. by apply elem_of_nil in Hin.
Qed.

Lemma flight_filters_errors_witness :
  (forall options, options <> [] ->
     (fun options : list string => default "All" (last options)) options
     ∈ options)
  /\ exists out,
       flight_filters (Some [mkAirline 1 "Delta"; mkAirline 2 "Air France"])
         [mkFlight 1 "On-Time" false; mkFlight 2 "Delayed" false]
         (fun options => default "All" (last options))
         (fun options => default "All" (head options)) true
       = Returns out.
Proof.
  assert (forall options : list string, options <> [] ->
            default "All" (last options) ∈ options) as Hpick.
  { intros options Hne. destruct (last options) as [x|] eqn:Hl.
    - simpl. apply last_Some in Hl as [l' ->]. set_solver.
    - by apply last_None in Hl. }
  split; [exact Hpick|].
  exact (flight_filters_errors
           (Some [mkAirline 1 "Delta"; mkAirline 2 "Air France"])
           [mkFlight 1 "On-Time" false; mkFlight 2 "Delayed" false]
           (fun options => default "All" (last options))
           (fun options => default "All" (head options)) true Hpick).
Defined.

(** X23. When the flight filters return, the flights shown are a
    subsequence of the flights table; each has the chosen status unless
    "All" was chosen, each is cancelled when "cancelled only" is ticked, and
    all have one airline id unless "All" airlines was chosen; with "All",
    "All" and no tick, every flight is shown. *)
Theorem flight_filters_sound a flights pick_airline pick_status cancelled_only
    out :
  flight_filters (Some a) flights pick_airline pick_status cancelled_only
    = Returns out ->
  let selected_airline := pick_airline (select_options (airline_name <$> a)) in
  let selected_status := pick_status (select_options (flight_status <$> flights)) in
  out `sublist_of` flights
  /\ (selected_status <> "All" ->
      forall f, f ∈ out -> flight_status f = selected_status)
  /\ (cancelled_only = true -> forall f, f ∈ out -> is_cancelled f = true)
  /\ (selected_airline <> "All" ->
      exists x,
        head (filter (fun y => airline_name y = selected_airline) a) = Some x
        /\ x ∈ a /\ airline_name x = selected_airline
        /\ forall f, f ∈ out -> flight_airline_id f = airline_id x)
  /\ (selected_airline = "All" -> selected_status = "All" ->
      cancelled_only = false -> out = flights).
Proof.
  intros H selected_airline selected_status. unfold flight_filters in H.
  fold selected_airline selected_status in H.
  set (by_status := fun l : list Flight =>
         if decide (selected_status <> "All")
         then filter (fun f => flight_status f = selected_status) l else l).
  set (by_cancel := fun l : list Flight =>
         if cancelled_only then filter (fun f => is_cancelled f = true) l
         else l).
  assert (forall l, by_status l `sublist_of` l) as Hs1
    by (intros l; unfold by_status;
        destruct (decide (selected_status <> "All"));
        [apply sublist_filter|done]).
  assert (forall l, by_cancel l `sublist_of` l) as Hs2
    by (intros l; unfold by_cancel; destruct cancelled_only;
        [apply sublist_filter|done]).
  assert (forall l, selected_status <> "All" ->
            forall f, f ∈ by_cancel (by_status l) ->
                      flight_status f = selected_status) as Hst.
  { intros l Hne f Hf. eapply elem_of_sublist in Hf; [|apply Hs2].
    unfold by_status in Hf. rewrite decide_True in Hf by done.
    by apply list_elem_of_filter in Hf as [? _]. }
  assert (forall l, cancelled_only = true ->
            forall f, f ∈ by_cancel (by_status l) -> is_cancelled f = true)
    as Hca.
  { intros l -> f Hf. unfold by_cancel in Hf.
    by apply list_elem_of_filter in Hf as [? _]. }
  assert (exists l, l `sublist_of` flights /\ out = by_cancel (by_status l)
            /\ (selected_airline = "All" -> l = flights)
            /\ (selected_airline <> "All" ->
                exists x,
                  head (filter (fun y => airline_name y = selected_airline) a)
                    = Some x
                  /\ x ∈ a /\ airline_name x = selected_airline
                  /\ forall f, f ∈ l -> flight_airline_id f = airline_id x))
    as (l & Hl & -> & Hall & Hone).
  { destruct (decide (selected_airline <> "All")) as [Hne|Hne].
    - destruct (filter (fun x => airline_name x = selected_airline) a)
        as [|x xs] eqn:Hf; [done|].
      injection H as <-.
      exists (filter (fun f => flight_airline_id f = airline_id x) flights).
      split; [apply sublist_filter|].
      split; [done|]. split; [done|]. intros _. exists x.
      assert (x ∈ filter (fun x => airline_name x = selected_airline) a) as Hx
        by (rewrite Hf; by left).
      split; [done|].
      apply list_elem_of_filter in Hx as [Hn Hx]. split; [done|].
      split; [done|]. intros f Hin. by apply list_elem_of_filter in Hin as [? _].
    - injection H as <-. exists flights. split; [done|]. split; [done|].
      split; [done|]. intros ?. by destruct Hne. }
  split; [|split; [|split; [|split]]].
  - etrans; [apply Hs2|]. etrans; [apply Hs1|]. done.
  - intros Hne. by apply Hst.
  - intros Hc. by apply Hca.
  - intros Hne. destruct (Hone Hne) as (x & Hh & Hx & Hn & Hid).
    exists x. split; [done|]. split; [done|]. split; [done|].
    intros f Hf. apply Hid.
    eapply elem_of_sublist; [exact Hf|]. etrans; [apply Hs2|apply Hs1].
  - intros Ha Hs Hc. rewrite (Hall Ha). unfold by_cancel, by_status.
    rewrite Hc, decide_False; [done|]. by intros ?.
Qed.

Lemma flight_filters_sound_witness :
  flight_filters (Some [mkAirline 1 "Delta"; mkAirline 2 "Air France"])
    [mkFlight 1 "On-Time" false; mkFlight 2 "Delayed" false;
     mkFlight 1 "Cancelled" true]
    (fun options => default "All" (last options))
    (fun options => default "All" (head options)) false
  = Returns [mkFlight 1 "On-Time" false; mkFlight 1 "Cancelled" true]
  /\ [mkFlight 1 "On-Time" false; mkFlight 1 "Cancelled" true]
     `sublist_of` [mkFlight 1 "On-Time" false; mkFlight 2 "Delayed" false;
                   mkFlight 1 "Cancelled" true].
Proof.
  assert (flight_filters (Some [mkAirline 1 "Delta"; mkAirline 2 "Air France"])
    [mkFlight 1 "On-Time" false; mkFlight 2 "Delayed" false;
     mkFlight 1 "Cancelled" true]
    (fun options => default "All" (last options))
    (fun options => default "All" (head options)) false
  = Returns [mkFlight 1 "On-Time" false; mkFlight 1 "Cancelled" true]) as H
    by (by vm_compute).
  split; [exact H|].
  exact (proj1 (flight_filters_sound _ _ _ _ _ _ H)).
Defined.

(** With two airlines of one name the flights of the first are shown. *)
Example flight_filters_first_ex :
  flight_filters (Some [mkAirline 7 "Delta"; mkAirline 9 "Delta"])
    [mkFlight 9 "On-Time" false; mkFlight 7 "Delayed" false]
    (fun options => default "All" (last options))
    (fun options => default "All" (head options)) false
  = Returns [mkFlight 7 "Delayed" false].
Proof. by vm_compute. Qed.

(** ** Running a request on its own result *)

(** The age tests as functions of the input cells. *)
Definition young_ok (c : Customer) : bool :=
  match age_of c with
  | Ok (Num a) => (25 <=? a) && (a <=? 40)
  | _ => false
  end.

Definition senior_ok (c : Customer) : bool :=
  match age_of c with
  | Ok (Num a) => 65 <=? a
  | _ => false
  end.

Section Idempotence.

Lemma select_all (P : Row -> Prop) `{!forall r, Decision (P r)} df :
  (forall r, r ∈ rows df -> P r) -> select P df = df.
Proof.
  destruct df as [cols rs]. unfold select. simpl. intros Hall. f_equal.
  induction rs as [|r rs IH]; [done|].
  rewrite filter_cons, decide_True by (apply Hall; by left).
  f_equal. apply IH. intros r' Hr'. apply Hall. by right.
Qed.

Lemma age_consistent_young r :
  age_consistent r -> age_ge 25 r && age_le 40 r = young_ok (fields r).
Proof.
  intros (a & Ha & Hf). unfold age_ge, age_le, young_ok. rewrite Ha, Hf.
  by destruct a.
Qed.

Lemma age_consistent_senior r :
  age_consistent r -> age_ge 65 r = senior_ok (fields r).
Proof.
  intros (a & Ha & Hf). unfold age_ge, senior_ok. rewrite Ha, Hf.
  by destruct a.
Qed.

Lemma set_column_elem name cols : name ∈ set_column name cols.
Proof. unfold set_column. case_decide; set_solver. Qed.

Lemma assign_age_fixed df :
  "age" ∈ columns df -> Forall age_consistent (rows df) ->
  assign_age df = Ok df.
Proof.
  intros Hc Hall. unfold assign_age. rewrite (mapM_age_again _ Hall). simpl.
  unfold set_column. rewrite decide_True by done. by destruct df.
Qed.

Lemma tier_matcher_fixed pl T c :
  (forall t, List.find (fun t => contains t pl) loyalty_tiers = Some t ->
     forall r, r ∈ rows T -> lower (loyalty_tier (fields r)) = t) ->
  exists c', tier_matcher pl (T, c) = (T, c').
Proof.
  intros Hall. unfold tier_matcher. rewrite tier_loop_find.
  destruct (List.find _ _) as [t|]; [|eauto].
  unfold tier_apply. simpl. rewrite select_all by (by apply Hall). eauto.
Qed.

Lemma country_matcher_fixed pl T c :
  (country_trigger pl = true ->
   forall c2, List.find (fun c => contains (lower c) pl)
                (unique ((country ∘ fields) <$> rows T)) = Some c2 ->
     forall r, r ∈ rows T -> lower (country (fields r)) = lower c2) ->
  exists c', country_matcher pl (T, c) = (T, c').
Proof.
  intros Hall. unfold country_matcher.
  destruct (country_trigger pl); [|eauto]. rewrite country_loop_find. simpl.
  destruct (List.find _ _) as [c2|] eqn:Hf; [|eauto].
  unfold country_apply. simpl. rewrite select_all by (by apply Hall). eauto.
Qed.

Lemma inactive_matcher_fixed pl T c :
  (inactive_trigger pl = true ->
   forall r, r ∈ rows T -> is_active (fields r) = false) ->
  exists c', inactive_matcher pl (T, c) = (T, c').
Proof.
  intros Hall. unfold inactive_matcher.
  destruct (inactive_trigger pl); [|eauto].
  simpl. rewrite select_all by (by apply Hall). eauto.
Qed.

Lemma active_matcher_fixed pl T c :
  (active_trigger pl = true ->
   forall r, r ∈ rows T -> is_active (fields r) = true) ->
  exists c', active_matcher pl (T, c) = (T, c').
Proof.
  intros Hall. unfold active_matcher.
  destruct (active_trigger pl); [|eauto].
  simpl. rewrite select_all by (by apply Hall). eauto.
Qed.

Lemma cabin_matcher_fixed pl T c :
  (forall k, List.find (fun k => contains k pl) cabin_classes = Some k ->
     forall r, r ∈ rows T ->
       contains k (lower (preferred_class (fields r))) = true) ->
  exists c', cabin_matcher pl (T, c) = (T, c').
Proof.
  intros Hall. unfold cabin_matcher. rewrite cabin_loop_find.
  destruct (List.find _ _) as [k|]; [|eauto].
  unfold cabin_apply. simpl. rewrite select_all; [eauto|].
  intros r Hr. apply Is_true_true. by apply Hall.
Qed.

Lemma young_matcher_fixed pl T c :
  (young_trigger pl = true ->
   "age" ∈ columns T /\ Forall age_consistent (rows T)
   /\ forall r, r ∈ rows T -> young_ok (fields r) = true) ->
  exists c', young_matcher pl (T, c) = Ok (T, c').
Proof.
  intros Hall. unfold young_matcher.
  destruct (young_trigger pl); [|eauto].
  destruct (Hall eq_refl) as (Hc & Hcons & Hy). simpl.
  rewrite (assign_age_fixed _ Hc Hcons). simpl.
  rewrite select_all; [eauto|].
  intros r Hr. apply Is_true_true. rewrite age_consistent_young; [by apply Hy|].
  by eapply Forall_forall in Hcons.
Qed.

Lemma senior_matcher_fixed pl T c :
  (senior_trigger pl = true ->
   "age" ∈ columns T /\ Forall age_consistent (rows T)
   /\ forall r, r ∈ rows T -> senior_ok (fields r) = true) ->
  exists c', senior_matcher pl (T, c) = Ok (T, c').
Proof.
  intros Hall. unfold senior_matcher.
  destruct (senior_trigger pl); [|eauto].
  destruct (Hall eq_refl) as (Hc & Hcons & Hy). simpl.
  rewrite (assign_age_fixed _ Hc Hcons). simpl.
  rewrite select_all; [eauto|].
  intros r Hr. apply Is_true_true. rewrite age_consistent_senior; [by apply Hy|].
  by eapply Forall_forall in Hcons.
Qed.

Lemma spend_matcher_fixed pl b T c :
  (forall bookings, b = Some bookings -> contains "spend" pl = true ->
     forall r, r ∈ rows T -> customer_id (fields r) ∈ high_spenders bookings) ->
  exists c', spend_matcher pl b (T, c) = (T, c').
Proof.
  intros Hall. unfold spend_matcher. destruct b as [bookings|]; [|eauto].
  destruct (contains "spend" pl); [|eauto].
  simpl. rewrite select_all by (by eapply Hall). eauto.
Qed.

(** After a run with an age keyword every returned row carries its age. *)
Lemma stages_age_consistent pl df b s :
  stages_of pl df b s ->
  (young_trigger pl || senior_trigger pl) = true ->
  Forall age_consistent (rows (s_spend s).1).
Proof.
  intros (_ & _ & _ & _ & _ & _ & H7 & H8 & H9) Ht.
  assert (Forall age_consistent (rows (s_senior s).1)) as Hall.
  { unfold senior_matcher in H8. destruct (senior_trigger pl).
    - destruct (assign_age (s_young s).1) as [d|] eqn:E; simpl in H8; [|done].
      injection H8 as <-. apply select_age_consistent.
      by eapply assign_age_consistent.
    - injection H8 as <-. rewrite orb_false_r in Ht.
      unfold young_matcher in H7. rewrite Ht in H7.
      destruct (assign_age (s_cabin s).1) as [d|] eqn:E; simpl in H7; [|done].
      injection H7 as <-. apply select_age_consistent.
      by eapply assign_age_consistent. }
  rewrite H9. unfold spend_matcher. destruct b as [bookings|]; [|done].
  destruct (contains "spend" pl); [|done]. by apply select_age_consistent.
Qed.

End Idempotence.

(** X24. Without a frequency keyword and without an age keyword the
    compiler is idempotent on the table: running the same request on the
    table it returned returns that same table again, columns and rows (the
    conditions reported may differ). *)
Theorem parse_segment_prompt_idempotent p df b out conds :
  frequency_trigger (lower p) = false ->
  young_trigger (lower p) = false ->
  senior_trigger (lower p) = false ->
  parse_segment_prompt p df b = Ok (out, conds) ->
  exists conds', parse_segment_prompt p out b = Ok (out, conds').
Proof.
  intros Hfreq _ _ H.
  destruct (parse_segment_prompt_stages _ _ _ _ _ H) as (s & Hs & -> & _).
  set (pl := lower p) in *. set (out := (s_spend s).1).
  pose proof (stages_narrow _ _ _ _ Hs)
    as (Hn8 & Hn7 & Hn6 & Hn5 & Hn4 & _ & Hn2 & Hn1).
  pose proof Hs as (H1 & H2 & _ & H4 & H5 & H6 & H7 & H8 & H9).
  (* tier *)
  assert (forall t, List.find (fun t => contains t pl) loyalty_tiers = Some t ->
            forall r, r ∈ rows out -> lower (loyalty_tier (fields r)) = t) as F1.
  { intros t Hf.
    apply (narrows_forall (fun c => lower (loyalty_tier c) = t) _ _ Hn1).
    unfold tier_matcher in H1. rewrite tier_loop_find, Hf in H1.
    rewrite H1. simpl. intros r Hr. by apply list_elem_of_filter in Hr as [? _]. }
  (* country *)
  assert (country_trigger pl = true ->
          forall c2, List.find (fun c => contains (lower c) pl)
                       (unique ((country ∘ fields) <$> rows out)) = Some c2 ->
            forall r, r ∈ rows out -> lower (country (fields r)) = lower c2)
    as F2.
  { intros Ht c2 Hf2.
    destruct (country_found_row _ _ _ Hf2) as (r2 & Hr2 & Hc2).
    apply find_some_elem in Hf2 as [_ Hcont].
    unfold country_matcher in H2. rewrite Ht, country_loop_find in H2.
    destruct (List.find _ _) as [c1|] eqn:Hf1.
    - assert (forall r, r ∈ rows out -> lower (country (fields r)) = lower c1)
        as Hall.
      { apply (narrows_forall (fun x => lower (country x) = lower c1) _ _ Hn2).
        rewrite H2. simpl. intros r Hr.
        by apply list_elem_of_filter in Hr as [? _]. }
      intros r Hr. rewrite (Hall r Hr), <- Hc2. symmetry. by apply Hall.
    - exfalso.
      destruct (narrows_elem _ _ r2 Hn1 Hr2) as (r0 & Hr0 & Heq).
      pose proof (find_none _ _ Hf1 c2) as Hnone. simpl in Hnone.
      rewrite Hnone in Hcont; [done|].
      apply list_elem_of_In, unique_elem, list_elem_of_fmap.
      exists r0. split; [|done]. simpl. by rewrite <- Heq. }
  (* activity *)
  assert (inactive_trigger pl = true ->
          forall r, r ∈ rows out -> is_active (fields r) = false) as F4.
  { intros Ht. apply (narrows_forall (fun c => is_active c = false) _ _ Hn4).
    unfold inactive_matcher in H4. rewrite Ht in H4. rewrite H4. simpl.
    intros r Hr. by apply list_elem_of_filter in Hr as [? _]. }
  assert (active_trigger pl = true ->
          forall r, r ∈ rows out -> is_active (fields r) = true) as F5.
  { intros Ht. apply (narrows_forall (fun c => is_active c = true) _ _ Hn5).
    unfold active_matcher in H5. rewrite Ht in H5. rewrite H5. simpl.
    intros r Hr. by apply list_elem_of_filter in Hr as [? _]. }
  (* cabin *)
  assert (forall k, List.find (fun k => contains k pl) cabin_classes = Some k ->
            forall r, r ∈ rows out ->
              contains k (lower (preferred_class (fields r))) = true) as F6.
  { intros k Hf.
    apply (narrows_forall
             (fun x => contains k (lower (preferred_class x)) = true) _ _ Hn6).
    unfold cabin_matcher in H6. rewrite cabin_loop_find, Hf in H6.
    rewrite H6. simpl. intros r Hr.
    apply list_elem_of_filter in Hr as [Hc _]. by apply Is_true_true. }
  (* the age column *)
  assert ((young_trigger pl || senior_trigger pl) = true ->
          "age" ∈ columns out /\ Forall age_consistent (rows out)) as Fage.
  { intros Ht. split; [|by eapply stages_age_consistent].
    subst out. rewrite H9, spend_matcher_columns.
    rewrite (senior_matcher_columns _ _ _ H8).
    destruct (senior_trigger pl); [apply set_column_elem|].
    rewrite (young_matcher_columns _ _ _ H7).
    rewrite orb_false_r in Ht. rewrite Ht. apply set_column_elem. }
  assert (young_trigger pl = true ->
          "age" ∈ columns out /\ Forall age_consistent (rows out)
          /\ forall r, r ∈ rows out -> young_ok (fields r) = true) as F7.
  { intros Ht. destruct Fage as [Hc Hcons]; [by rewrite Ht|].
    split; [done|]. split; [done|].
    apply (narrows_forall (fun c => young_ok c = true) _ _ Hn7).
    unfold young_matcher in H7. rewrite Ht in H7.
    destruct (assign_age (s_cabin s).1) as [d|] eqn:E; simpl in H7; [|done].
    injection H7 as <-. simpl. intros r Hr.
    apply list_elem_of_filter in Hr as [Hp Hr].
    rewrite <- age_consistent_young; [by apply Is_true_true|].
    pose proof (assign_age_consistent _ _ E) as Hall.
    by eapply Forall_forall in Hall. }
  assert (senior_trigger pl = true ->
          "age" ∈ columns out /\ Forall age_consistent (rows out)
          /\ forall r, r ∈ rows out -> senior_ok (fields r) = true) as F8.
  { intros Ht. destruct Fage as [Hc Hcons]; [by rewrite Ht, orb_true_r|].
    split; [done|]. split; [done|].
    apply (narrows_forall (fun c => senior_ok c = true) _ _ Hn8).
    unfold senior_matcher in H8. rewrite Ht in H8.
    destruct (assign_age (s_young s).1) as [d|] eqn:E; simpl in H8; [|done].
    injection H8 as <-. simpl. intros r Hr.
    apply list_elem_of_filter in Hr as [Hp Hr].
    rewrite <- age_consistent_senior; [by apply Is_true_true|].
    pose proof (assign_age_consistent _ _ E) as Hall.
    by eapply Forall_forall in Hall. }
  (* spend *)
  assert (forall bookings, b = Some bookings -> contains "spend" pl = true ->
            forall r, r ∈ rows out ->
              customer_id (fields r) ∈ high_spenders bookings) as F9.
  { intros bookings -> Hsp r Hr. subst out. rewrite H9 in Hr.
    unfold spend_matcher in Hr. rewrite Hsp in Hr. simpl in Hr.
    by apply list_elem_of_filter in Hr as [? _]. }
  (* the second run *)
  cbv beta zeta delta [parse_segment_prompt customer_side]. fold pl.
  destruct (tier_matcher_fixed pl out [] F1) as [c1 ->].
  destruct (country_matcher_fixed pl out c1 F2) as [c2 ->].
  unfold frequency_matcher. rewrite Hfreq. cbn [bind].
  destruct (inactive_matcher_fixed pl out c2 F4) as [c4 ->].
  destruct (active_matcher_fixed pl out c4 F5) as [c5 ->].
  destruct (cabin_matcher_fixed pl out c5 F6) as [c6 ->].
  destruct (young_matcher_fixed pl out c6 F7) as [c7 ->]. cbn [bind].
  destruct (senior_matcher_fixed pl out c7 F8) as [c8 ->]. cbn [bind].
  destruct (spend_matcher_fixed pl b out c8 F9) as [c9 ->].
  unfold finish. simpl. eauto.
Qed.

Lemma parse_segment_prompt_idempotent_witness :
  (frequency_trigger (lower "inactive members in the usa") = false
   /\ young_trigger (lower "inactive members in the usa") = false
   /\ senior_trigger (lower "inactive members in the usa") = false
   /\ parse_segment_prompt "inactive members in the usa" demo None
      = Ok ({| columns := demo_columns;
               rows := [mk 2 "Gold" "USA" 5 false "Business" (Date 1950 1 30)] |},
            ["Country: USA"; "Status: Inactive"]))
  /\ exists conds',
       parse_segment_prompt "inactive members in the usa"
         {| columns := demo_columns;
            rows := [mk 2 "Gold" "USA" 5 false "Business" (Date 1950 1 30)] |}
         None
       = Ok ({| columns := demo_columns;
                rows := [mk 2 "Gold" "USA" 5 false "Business"
                           (Date 1950 1 30)] |}, conds').
Proof.
  assert (frequency_trigger (lower "inactive members in the usa") = false)
    as H1 by (by vm_compute).
  assert (young_trigger (lower "inactive members in the usa") = false)
    as H2 by (by vm_compute).
  assert (senior_trigger (lower "inactive members in the usa") = false)
    as H3 by (by vm_compute).
  assert (parse_segment_prompt "inactive members in the usa" demo None
      = Ok ({| columns := demo_columns;
               rows := [mk 2 "Gold" "USA" 5 false "Business" (Date 1950 1 30)] |},
            ["Country: USA"; "Status: Inactive"])) as H4
    by (by vm_compute).
  split; [done|].
  exact (parse_segment_prompt_idempotent _ _ _ _ _ H1 H2 H3 H4).
Defined.

(** With a frequency keyword the second run can narrow further: the
    percentile is taken again, over the rows that were kept. *)
Example frequency_not_idempotent_ex :
  let T := {| columns := demo_columns;
              rows := (fun n => mk n "Gold" "USA" n true "Economy" NaT)
                      <$> [1; 2; 3; 4; 5; 6; 7; 8] |} in
  match parse_segment_prompt "many flights" T None with
  | Ok (out, _) =>
      (customer_id ∘ fields) <$> rows out = [7; 8]
      /\ match parse_segment_prompt "many flights" out None with
         | Ok (out', _) => (customer_id ∘ fields) <$> rows out' = [8]
         | Raise _ => False
         end
  | Raise _ => False
  end.
Proof. by vm_compute. Qed.

(** * Rows, cells and columns of the result *)

(** ** Rows through the matchers that do not assign a column *)

Section Rows.

Lemma select_rows (P : Row -> Prop) `{!forall r, Decision (P r)} df :
  rows (select P df) `sublist_of` rows df.
Proof. apply sublist_filter. Qed.

Lemma tier_matcher_rows pl st :
  rows (tier_matcher pl st).1 `sublist_of` rows st.1.
Proof.
  unfold tier_matcher. rewrite tier_loop_find.
  destruct (List.find _ _); [apply select_rows | done].
Qed.

Lemma country_matcher_rows pl st :
  rows (country_matcher pl st).1 `sublist_of` rows st.1.
Proof.
  unfold country_matcher. destruct (country_trigger pl); [|done].
  rewrite country_loop_find.
  destruct (List.find _ _); [apply select_rows | done].
Qed.

Lemma frequency_matcher_rows pl st st' :
  frequency_matcher pl st = Ok st' -> rows st'.1 `sublist_of` rows st.1.
Proof.
  unfold frequency_matcher. destruct (frequency_trigger pl).
  - destruct (int_of_float _); simpl; [|done].
    intros [= <-]. apply select_rows.
  - by intros [= <-].
Qed.

Lemma inactive_matcher_rows pl st :
  rows (inactive_matcher pl st).1 `sublist_of` rows st.1.
Proof.
  unfold inactive_matcher.
  destruct (inactive_trigger pl); [apply select_rows | done].
Qed.

Lemma active_matcher_rows pl st :
  rows (active_matcher pl st).1 `sublist_of` rows st.1.
Proof.
  unfold active_matcher.
  destruct (active_trigger pl); [apply select_rows | done].
Qed.

Lemma cabin_matcher_rows pl st :
  rows (cabin_matcher pl st).1 `sublist_of` rows st.1.
Proof.
  unfold cabin_matcher. rewrite cabin_loop_find.
  destruct (List.find _ _); [apply select_rows | done].
Qed.

Lemma spend_matcher_rows pl b st :
  rows (spend_matcher pl b st).1 `sublist_of` rows st.1.
Proof.
  unfold spend_matcher. destruct b as [bookings|]; [|done].
  destruct (contains "spend" pl); [apply select_rows | done].
Qed.

(** Without an age keyword no cell is written: the returned rows are rows
    of the input, in their order. *)
Lemma parse_segment_prompt_rows p df b out conds :
  (young_trigger (lower p) || senior_trigger (lower p)) = false ->
  parse_segment_prompt p df b = Ok (out, conds) ->
  rows out `sublist_of` rows df.
Proof.
  intros Ht H. apply orb_false_elim in Ht as [Hy Hs].
  destruct (parse_segment_prompt_stages _ _ _ _ _ H)
    as (s & (H1 & H2 & H3 & H4 & H5 & H6 & H7 & H8 & H9) & -> & _).
  unfold young_matcher in H7. rewrite Hy in H7. injection H7 as H7.
  unfold senior_matcher in H8. rewrite Hs in H8. injection H8 as H8.
  rewrite H9, <- H8, <- H7, H6, H5, H4.
  etrans; [apply spend_matcher_rows|].
  etrans; [apply cabin_matcher_rows|].
  etrans; [apply active_matcher_rows|].
  etrans; [apply inactive_matcher_rows|].
  etrans; [by eapply frequency_matcher_rows|].
  rewrite H2, H1.
  etrans; [apply country_matcher_rows|].
  apply (tier_matcher_rows _ (df, [])).
Qed.

(** With an age keyword every returned row carries the age derived from
    its date of birth. *)
Lemma parse_segment_prompt_age p df b out conds :
  (young_trigger (lower p) || senior_trigger (lower p)) = true ->
  parse_segment_prompt p df b = Ok (out, conds) ->
  forall r, r ∈ rows out ->
    exists a, age r = Some a /\ age_of (fields r) = Ok a.
Proof.
  intros Ht H r Hr.
  destruct (parse_segment_prompt_stages _ _ _ _ _ H) as (s & Hs & -> & _).
  pose proof (stages_age_consistent _ _ _ _ Hs Ht) as Hall.
  rewrite Forall_forall in Hall. by apply Hall.
Qed.

End Rows.

(** ** The rows returned *)

(** A table that already has an ["age"] column, holding 40 in every row. *)
Definition demo_with_age : DataFrame :=
  {| columns := demo_columns ++ ["age"];
     rows := (fun r => {| fields := fields r; age := Some (Num 40) |})
             <$> rows demo |}.

(** The reading of the result as a set of unmodified input rows: every
    returned row is a row of the input, all its cells as they were. *)
Definition rows_unmodified : Prop :=
  forall p df b out conds,
    parse_segment_prompt p df b = Ok (out, conds) ->
    forall r, r ∈ rows out -> r ∈ rows df.

(** C1, as stated, fails on an input that has an ["age"] column: "senior
    members" returns customer 2 with the age cell 76 where the input row
    holds 40. *)
Lemma senior_overwrites_age : ~ rows_unmodified.
Proof.
  intros H.
  assert (parse_segment_prompt "senior members" demo_with_age None
    = Ok ({| columns := demo_columns ++ ["age"];
             rows := [{| fields := fields (mk 2 "Gold" "USA" 5 false "Business"
                                             (Date 1950 1 30));
                         age := Some (Num 76) |}] |},
          ["Age: 65+"])) as E by (by vm_compute).
  specialize (H _ _ _ _ _ E _ ltac:(by left)).
  revert H. apply (bool_decide_unpack _). by vm_compute.
Qed.

(** C1, amended.  Whenever [parse_segment_prompt] returns, the returned
    rows are input rows, in input order and none added, with every cell
    other than ["age"] unchanged.  Without an age keyword the ["age"] cell
    is unchanged too: the returned rows are a subsequence of the input
    rows.  With "young", "millennial" or "senior" in the request the
    ["age"] cell of every returned row holds the age derived from its date
    of birth, whatever the input held. *)
Theorem parse_segment_prompt_subset p df b out conds :
  parse_segment_prompt p df b = Ok (out, conds) ->
  (fields <$> rows out) `sublist_of` (fields <$> rows df)
  /\ (forall r, r ∈ rows out -> exists r0, r0 ∈ rows df /\ fields r = fields r0)
  /\ (length (rows out) <= length (rows df))%nat
  /\ ((young_trigger (lower p) || senior_trigger (lower p)) = false ->
      rows out `sublist_of` rows df)
  /\ ((young_trigger (lower p) || senior_trigger (lower p)) = true ->
      forall r, r ∈ rows out ->
        exists a, age r = Some a /\ age_of (fields r) = Ok a).
Proof.
  intros H. pose proof (parse_segment_prompt_narrows _ _ _ _ _ H) as Hn.
  unfold narrows in Hn. split; [done|]. split; [|split; [|split]].
  - intros r Hr.
    assert (fields r ∈ fields <$> rows df) as Hin.
    { eapply elem_of_sublist; [|exact Hn]. by apply list_elem_of_fmap_2. }
    apply list_elem_of_fmap in Hin as (r0 & Heq & Hr0). eauto.
  - apply sublist_length in Hn. by rewrite !length_fmap in Hn.
  - intros Ht. by eapply parse_segment_prompt_rows.
  - intros Ht. by eapply parse_segment_prompt_age.
Qed.

Lemma parse_segment_prompt_subset_witness :
  parse_segment_prompt "gold members from usa" demo_with_age
      (Some demo_bookings)
    = Ok ({| columns := demo_columns ++ ["age"];
             rows := (fun r => {| fields := fields r; age := Some (Num 40) |})
                     <$> [mk 1 "Gold" "USA" 50 true "Economy" (Date 1990 4 12);
                          mk 2 "Gold" "USA" 5 false "Business" (Date 1950 1 30);
                          mk 4 "Gold" "USA" 60 true "Premium Economy"
                            (Date 1980 11 5)] |},
          ["Loyalty tier: Gold"; "Country: USA"])
  /\ ((fun r => {| fields := fields r; age := Some (Num 40) |})
      <$> [mk 1 "Gold" "USA" 50 true "Economy" (Date 1990 4 12);
           mk 2 "Gold" "USA" 5 false "Business" (Date 1950 1 30);
           mk 4 "Gold" "USA" 60 true "Premium Economy" (Date 1980 11 5)])
     `sublist_of` rows demo_with_age.
Proof.
  assert (parse_segment_prompt "gold members from usa" demo_with_age
      (Some demo_bookings)
    = Ok ({| columns := demo_columns ++ ["age"];
             rows := (fun r => {| fields := fields r; age := Some (Num 40) |})
                     <$> [mk 1 "Gold" "USA" 50 true "Economy" (Date 1990 4 12);
                          mk 2 "Gold" "USA" 5 false "Business" (Date 1950 1 30);
                          mk 4 "Gold" "USA" 60 true "Premium Economy"
                            (Date 1980 11 5)] |},
          ["Loyalty tier: Gold"; "Country: USA"])) as H by (by vm_compute).
  split; [exact H|].
  destruct (parse_segment_prompt_subset _ _ _ _ _ H) as (_ & _ & _ & Hrows & _).
  apply Hrows. by vm_compute.
Defined.

(** ** The schema of the result, amended *)

(** C9, amended.  Whenever the function returns, the columns of the result
    are those of the input, followed by ["age"] when the request contains
    "young", "millennial" or "senior" and the input has no such column.
    The returned rows keep their input order and every input cell other
    than ["age"]; the ["age"] cell is kept without an age keyword and is
    overwritten with the derived age with one. *)
Theorem parse_segment_prompt_schema p df b out conds :
  parse_segment_prompt p df b = Ok (out, conds) ->
  columns out =
    (if young_trigger (lower p) || senior_trigger (lower p)
     then (if decide ("age" ∈ columns df) then columns df
           else columns df ++ ["age"])
     else columns df)
  /\ (fields <$> rows out) `sublist_of` (fields <$> rows df)
  /\ (if young_trigger (lower p) || senior_trigger (lower p)
      then forall r, r ∈ rows out ->
             exists a, age r = Some a /\ age_of (fields r) = Ok a
      else rows out `sublist_of` rows df).
Proof.
  intros H. split; [|split].
  - unfold parse_segment_prompt in H.
    destruct (customer_side (lower p) df) as [st|e] eqn:Hc; simpl in H; [|done].
    injection H as <- _.
    rewrite spend_matcher_columns. by apply customer_side_columns.
  - exact (parse_segment_prompt_narrows _ _ _ _ _ H).
  - destruct (young_trigger (lower p) || senior_trigger (lower p)) eqn:Ht.
    + by eapply parse_segment_prompt_age.
    + by eapply parse_segment_prompt_rows.
Qed.

Lemma parse_segment_prompt_schema_witness :
  parse_segment_prompt "senior members from the USA" demo None
    = Ok ({| columns := demo_columns ++ ["age"];
             rows := [{| fields := fields (mk 2 "Gold" "USA" 5 false "Business"
                                             (Date 1950 1 30));
                         age := Some (Num 76) |}] |},
          ["Country: USA"; "Age: 65+"])
  /\ demo_columns ++ ["age"] = columns demo ++ ["age"].
Proof.
  assert (parse_segment_prompt "senior members from the USA" demo None
    = Ok ({| columns := demo_columns ++ ["age"];
             rows := [{| fields := fields (mk 2 "Gold" "USA" 5 false "Business"
                                             (Date 1950 1 30));
                         age := Some (Num 76) |}] |},
          ["Country: USA"; "Age: 65+"])) as H by (by vm_compute).
  split; [exact H|].
  exact (proj1 (parse_segment_prompt_schema _ _ _ _ _ H)).
Defined.

(** * The spend matcher over any arithmetic of amounts *)

(** The amounts of the bookings table are floating-point cells, and the
    sums, the percentile and the comparison of the spend matcher are those
    of pandas on such cells.  Here the matcher is given over an arbitrary
    type of amounts, with the three operations as parameters; the model
    above is the instance with exact integers. *)

(** A row of the bookings table: the customer id may be missing. *)
Record BookingRow (A : Type) : Type := mkBookingRow {
  row_customer_id : option Z;
  row_status : string;
  row_amount : A
}.
Arguments mkBookingRow {A} _ _ _.
Arguments row_customer_id {A} _.
Arguments row_status {A} _.
Arguments row_amount {A} _.

Section AnyArithmetic.

Context {A T : Type}.
(** [sum()] of the amounts of one group, in table order. *)
Variable group_sum : list A -> A.
(** [series.quantile(0.75)] of the per-customer sums. *)
Variable quantile : list A -> T.
(** [customer_spend >= threshold], false on NaN. *)
Variable ge : A -> T -> bool.

(** [bookings_df[bookings_df['booking_status'] == 'Completed']] *)
Definition completed_bookings (bookings : list (BookingRow A))
    : list (BookingRow A) :=
  filter (fun b => row_status b = "Completed") bookings.

(** The keys of [groupby('customer_id')]: the distinct ids that are not
    missing, in increasing order. *)
Definition group_keys (rows : list (BookingRow A)) : list Z :=
  merge_sort Z.le (remove_dups (omap row_customer_id rows)).

(** The amounts of the group of [k], in table order. *)
Definition group_amounts (k : Z) (rows : list (BookingRow A)) : list A :=
  row_amount <$> filter (fun b => row_customer_id b = Some k) rows.

(** [...groupby('customer_id')['total_amount'].sum()]: the series indexed
    by customer id. *)
Definition spend_series (bookings : list (BookingRow A)) : list (Z * A) :=
  let rows := completed_bookings bookings in
  (fun k => (k, group_sum (group_amounts k rows))) <$> group_keys rows.

Definition spend_threshold (bookings : list (BookingRow A)) : T :=
  quantile ((spend_series bookings).*2).

(** [customer_spend[customer_spend >= customer_spend.quantile(0.75)].index] *)
Definition high_spender_ids (bookings : list (BookingRow A)) : list Z :=
  (filter (fun kv => ge kv.2 (spend_threshold bookings))
          (spend_series bookings)).*1.

Definition spend_matcher_any (prompt_lower : string)
    (bookings_df : option (list (BookingRow A))) (st : State) : State :=
  match bookings_df with
  | Some bookings =>
      if contains "spend" prompt_lower then
        (select (fun r => customer_id (fields r) ∈ high_spender_ids bookings)
           st.1,
         st.2 ++ ["High spenders (top 25%)"])
      else st
  | None => st
  end.

Definition parse_segment_prompt_any (prompt : string) (customers_df : DataFrame)
    (bookings_df : option (list (BookingRow A)))
    : result (DataFrame * list string) :=
  let prompt_lower := lower prompt in
  let! st := customer_side prompt_lower customers_df in
  let st := spend_matcher_any prompt_lower bookings_df st in
  Ok (finish st).

Lemma elem_of_group_keys rows k :
  k ∈ group_keys rows <-> exists b, b ∈ rows /\ row_customer_id b = Some k.
Proof.
  unfold group_keys.
  rewrite merge_sort_Permutation, elem_of_remove_dups, list_elem_of_omap.
  done.
Qed.

Lemma group_keys_NoDup rows : NoDup (group_keys rows).
Proof.
  unfold group_keys. rewrite merge_sort_Permutation. apply NoDup_remove_dups.
Qed.

Lemma elem_of_spend_series bookings k v :
  (k, v) ∈ spend_series bookings <->
  k ∈ group_keys (completed_bookings bookings)
  /\ v = group_sum (group_amounts k (completed_bookings bookings)).
Proof.
  unfold spend_series. rewrite list_elem_of_fmap. split.
  - intros (k' & [= -> ->] & Hk). done.
  - intros [Hk ->]. by exists k.
Qed.

Lemma elem_of_high_spender_ids bookings k :
  k ∈ high_spender_ids bookings <->
  k ∈ group_keys (completed_bookings bookings)
  /\ ge (group_sum (group_amounts k (completed_bookings bookings)))
        (spend_threshold bookings) = true.
Proof.
  unfold high_spender_ids. rewrite list_elem_of_fmap. split.
  - intros ([k' v] & -> & Hin). simpl.
    apply list_elem_of_filter in Hin as [Hge Hin]. simpl in Hge.
    apply elem_of_spend_series in Hin as [Hk ->].
    split; [done|]. by apply Is_true_true.
  - intros [Hk Hge].
    exists (k, group_sum (group_amounts k (completed_bookings bookings))).
    split; [done|]. apply list_elem_of_filter. split.
    + simpl. by apply Is_true_true.
    + by apply elem_of_spend_series.
Qed.

End AnyArithmetic.

Section AnyArithmeticScope.

Context {A T : Type}.
Variable group_sum : list A -> A.
Variable quantile : list A -> T.
Variable ge : A -> T -> bool.

Lemma completed_ids (bookings : list (BookingRow A)) :
  omap row_customer_id (completed_bookings bookings)
  = omap (fun b => if decide (row_status b = "Completed")
                   then row_customer_id b else None) bookings.
Proof.
  unfold completed_bookings.
  induction bookings as [|b bs IH]; [done|].
  rewrite filter_cons.
  change (omap ?f (b :: bs))
    with (match f b with Some y => y :: omap f bs | None => omap f bs end).
  destruct (decide (row_status b = "Completed")) as [Hd|Hd].
  - change (omap ?f (b :: ?l))
      with (match f b with Some y => y :: omap f l | None => omap f l end).
    rewrite decide_True by done. by rewrite IH.
  - rewrite decide_False by done. by rewrite IH.
Qed.

Lemma completed_group_amounts k (bookings : list (BookingRow A)) :
  group_amounts k (completed_bookings bookings)
  = row_amount <$> filter (fun b => row_customer_id b = Some k
                                    /\ row_status b = "Completed") bookings.
Proof.
  unfold group_amounts, completed_bookings. by rewrite list_filter_filter.
Qed.

Lemma spend_series_values (bookings : list (BookingRow A)) :
  (spend_series group_sum bookings).*2
  = (fun k => group_sum (group_amounts k (completed_bookings bookings)))
    <$> group_keys (completed_bookings bookings).
Proof.
  unfold spend_series. rewrite <- list_fmap_compose. done.
Qed.

End AnyArithmeticScope.

(** C5.  When bookings are supplied and "spend" occurs in the request, and
    the customer-side matchers return the table [st.1], the result is that
    table restricted, in its order, to the customers who have a completed
    booking and whose sum of completed amounts is at or above the
    threshold, with one condition appended.  The sums are taken per
    customer id over all bookings whose status is "Completed", and the
    threshold is the percentile of these sums over the distinct ids of the
    completed bookings of the whole table: neither looks at the customer
    table.  This holds for any arithmetic of sums, percentile and
    comparison. *)
Theorem spend_matcher_scope {A T : Type} (group_sum : list A -> A)
    (quantile : list A -> T) (ge : A -> T -> bool)
    p df (bookings : list (BookingRow A)) st :
  contains "spend" (lower p) = true ->
  customer_side (lower p) df = Ok st ->
  let done_by := fun k : Z =>
    filter (fun b => row_customer_id b = Some k /\ row_status b = "Completed")
           bookings in
  let total := fun k : Z => group_sum (row_amount <$> done_by k) in
  let ids :=
    merge_sort Z.le
      (remove_dups
         (omap (fun b => if decide (row_status b = "Completed")
                         then row_customer_id b else None) bookings)) in
  let threshold := quantile (total <$> ids) in
  exists out,
    parse_segment_prompt_any group_sum quantile ge p df (Some bookings)
      = Ok (out, st.2 ++ ["High spenders (top 25%)"])
    /\ columns out = columns st.1
    /\ rows out `sublist_of` rows st.1
    /\ (forall r, r ∈ rows out <->
          r ∈ rows st.1
          /\ done_by (customer_id (fields r)) <> []
          /\ ge (total (customer_id (fields r))) threshold = true)
    /\ (forall k, k ∈ ids <-> done_by k <> []).
Proof.
  intros Hs Hc done_by total ids threshold.
  assert (ids = group_keys (completed_bookings bookings)) as Hids.
  { unfold ids, group_keys. by rewrite completed_ids. }
  assert (forall k, total k
            = group_sum (group_amounts k (completed_bookings bookings)))
    as Htotal.
  { intros k. unfold total, done_by. by rewrite completed_group_amounts. }
  assert (threshold = spend_threshold group_sum quantile bookings) as Hthr.
  { unfold threshold, spend_threshold. rewrite spend_series_values, Hids.
    f_equal. apply list_fmap_ext. intros _ k _. apply Htotal. }
  assert (forall k, k ∈ ids <-> done_by k <> []) as Hk.
  { intros k. rewrite Hids, elem_of_group_keys. unfold done_by. split.
    - intros (b & Hb & Hid) Hnil.
      apply list_elem_of_filter in Hb as [Hst Hb].
      assert (b ∈ filter (fun b => row_customer_id b = Some k
                                   /\ row_status b = "Completed") bookings)
        as Hin by (by apply list_elem_of_filter).
      rewrite Hnil in Hin. by apply elem_of_nil in Hin.
    - intros Hne. destruct (filter _ bookings) as [|b bs] eqn:Hf; [done|].
      assert (b ∈ b :: bs) as Hb by (by left). rewrite <- Hf in Hb.
      apply list_elem_of_filter in Hb as [[Hid Hst] Hb].
      exists b. split; [|done]. by apply list_elem_of_filter. }
  eexists. split; [|split; [|split; [|split]]].
  - unfold parse_segment_prompt_any. rewrite Hc. cbn [bind].
    unfold spend_matcher_any. rewrite Hs. unfold finish. cbn [fst snd].
    by destruct (st.2).
  - done.
  - apply sublist_filter.
  - intros r. cbn [rows select]. rewrite list_elem_of_filter.
    rewrite elem_of_high_spender_ids, <- Hids, <- Htotal, <- Hthr, Hk. tauto.
  - exact Hk.
Qed.

(** The bookings of the sample data as rows with an optional id, and one
    completed booking without a customer. *)
Definition demo_booking_rows : list (BookingRow Z) :=
  [mkBookingRow (Some 1) "Completed" 100; mkBookingRow (Some 2) "Completed" 10;
   mkBookingRow (Some 1) "Completed" 5; mkBookingRow (Some 3) "Cancelled" 1000;
   mkBookingRow (Some 4) "Completed" 40; mkBookingRow None "Completed" 999].

Lemma spend_matcher_scope_witness :
  (contains "spend" (lower "Gold members by spend") = true
   /\ customer_side (lower "Gold members by spend") demo
      = Ok (select (fun r => lower (loyalty_tier (fields r)) = "gold") demo,
            ["Loyalty tier: Gold"]))
  /\ (exists out,
        parse_segment_prompt_any (foldr Z.add 0) quantile75 ge_threshold
          "Gold members by spend" demo (Some demo_booking_rows)
        = Ok (out, ["Loyalty tier: Gold"; "High spenders (top 25%)"])
        /\ rows out `sublist_of`
             rows (select (fun r => lower (loyalty_tier (fields r)) = "gold")
                     demo))
  /\ parse_segment_prompt_any (foldr Z.add 0) quantile75 ge_threshold
       "Gold members by spend" demo (Some demo_booking_rows)
     = Ok ({| columns := demo_columns;
              rows := [mk 1 "Gold" "USA" 50 true "Economy" (Date 1990 4 12)] |},
           ["Loyalty tier: Gold"; "High spenders (top 25%)"]).
Proof.
  assert (contains "spend" (lower "Gold members by spend") = true) as H1
    by (by vm_compute).
  assert (customer_side (lower "Gold members by spend") demo
      = Ok (select (fun r => lower (loyalty_tier (fields r)) = "gold") demo,
            ["Loyalty tier: Gold"])) as H2 by (by vm_compute).
  split; [done|]. split; [|by vm_compute].
  destruct (spend_matcher_scope (foldr Z.add 0) quantile75 ge_threshold
              "Gold members by spend" demo demo_booking_rows _ H1 H2)
    as (out & Hout & _ & Hsub & _).
  exists out. split; [exact Hout|exact Hsub].
Defined.

(** ** The exact-integer model as an instance *)

Definition as_row (b : Booking) : BookingRow Z :=
  mkBookingRow (Some (booking_customer_id b)) (booking_status b)
               (total_amount b).

Section IntegerInstance.

Lemma merge_sort_permutation (l1 l2 : list Z) :
  l1 ≡ₚ l2 -> merge_sort Z.le l1 = merge_sort Z.le l2.
Proof.
  intros Hp. apply (StronglySorted_unique_strong Z.le).
  - intros x1 x2 _ _ ? ?. lia.
  - apply (StronglySorted_merge_sort _).
  - apply (StronglySorted_merge_sort _).
  - by rewrite !merge_sort_Permutation.
Qed.

(** The percentile depends on the values of the series only, not on their
    order. *)
Lemma quantile75_permutation (l1 l2 : list Z) :
  l1 ≡ₚ l2 -> quantile75 l1 = quantile75 l2.
Proof.
  intros Hp.
  destruct l1 as [|v0 l1'].
  { apply Permutation_nil_l in Hp. by subst. }
  destruct l2 as [|w0 l2'].
  { by apply Permutation_nil_r in Hp. }
  unfold quantile75.
  rewrite <- (merge_sort_permutation _ _ Hp), <- (Permutation_length Hp).
  set (values := v0 :: l1') in *.
  set (sorted := merge_sort Z.le values).
  set (n := Z.of_nat (length values)).
  set (virtual := (inject_Z (n - 1) * (3 # 4))%Q).
  set (previous := Qfloor virtual).
  set (next := Z.min (previous + 1) (n - 1)).
  assert (1 <= n) as Hn by (subst n values; simpl; lia).
  assert (0 <= virtual)%Q as Hv0.
  { subst virtual. apply Qmult_le_0_compat; [|done].
    change 0%Q with (inject_Z 0). rewrite <- Zle_Qle. lia. }
  assert (virtual <= inject_Z (n - 1))%Q as Hv1.
  { subst virtual.
    assert (0 <= inject_Z (n - 1))%Q
      by (change 0%Q with (inject_Z 0); rewrite <- Zle_Qle; lia).
    nra. }
  assert (0 <= previous <= n - 1) as Hprev.
  { subst previous. split.
    - rewrite <- (Qfloor_Z 0). by apply Qfloor_resp_le.
    - rewrite <- (Qfloor_Z (n - 1)). by apply Qfloor_resp_le. }
  assert (previous <= next <= n - 1) as Hnx by (subst next; lia).
  assert (length sorted = length values) as Hlen
    by (subst sorted; by rewrite merge_sort_Permutation).
  destruct (lookup_lt_is_Some_2 sorted (Z.to_nat previous)) as [lo Hlo].
  { rewrite Hlen. subst n. lia. }
  destruct (lookup_lt_is_Some_2 sorted (Z.to_nat next)) as [hi Hhi].
  { rewrite Hlen. subst n. lia. }
  by rewrite Hlo, Hhi.
Qed.

Lemma as_row_completed bookings :
  completed_bookings (as_row <$> bookings) = as_row <$> completed bookings.
Proof.
  unfold completed_bookings, completed.
  induction bookings as [|b bs IH]; [done|].
  rewrite fmap_cons, !filter_cons. simpl.
  destruct (decide (booking_status b = "Completed")); by rewrite IH.
Qed.

Lemma as_row_group_amounts k bookings :
  group_amounts k (as_row <$> bookings)
  = total_amount <$> filter (fun b => booking_customer_id b = k) bookings.
Proof.
  unfold group_amounts.
  induction bookings as [|b bs IH]; [done|].
  rewrite fmap_cons, !filter_cons. simpl.
  destruct (decide (booking_customer_id b = k)) as [->|Hne].
  - rewrite decide_True by done. rewrite !fmap_cons. by rewrite IH.
  - rewrite decide_False by congruence. done.
Qed.

Lemma as_row_group_keys k bookings :
  k ∈ group_keys (as_row <$> bookings) <->
  filter (fun b => booking_customer_id b = k) bookings <> [].
Proof.
  rewrite elem_of_group_keys. split.
  - intros (r & Hr & Hid) Hnil.
    apply list_elem_of_fmap in Hr as (b & -> & Hb). simpl in Hid.
    assert (b ∈ filter (fun b => booking_customer_id b = k) bookings) as Hin
      by (apply list_elem_of_filter; split; [congruence|done]).
    rewrite Hnil in Hin. by apply elem_of_nil in Hin.
  - intros Hne. destruct (filter _ bookings) as [|b bs] eqn:Hf; [done|].
    assert (b ∈ b :: bs) as Hb by (by left). rewrite <- Hf in Hb.
    apply list_elem_of_filter in Hb as [Hid Hb].
    exists (as_row b). split; [by apply list_elem_of_fmap_2|].
    simpl. by rewrite Hid.
Qed.

(** The series as a map and the series as a list have the same entries. *)
Lemma customer_spend_series bookings k v :
  customer_spend bookings !! k = Some v <->
  (k, v) ∈ spend_series (foldr Z.add 0) (as_row <$> bookings).
Proof.
  rewrite elem_of_spend_series, as_row_completed, as_row_group_keys,
    as_row_group_amounts, customer_spend_lookup.
  fold (completed_by k bookings). fold (completed_total k bookings).
  case_decide as Hnil; split.
  - done.
  - by intros [? _].
  - by intros [= <-].
  - by intros [_ ->].
Qed.

Lemma spend_series_NoDup {A} (group_sum : list A -> A) bookings :
  NoDup (spend_series group_sum bookings).
Proof.
  unfold spend_series. apply NoDup_fmap_2; [|apply group_keys_NoDup].
  by intros k1 k2 [= ->].
Qed.

Lemma customer_spend_threshold bookings :
  quantile75 ((map_to_list (customer_spend bookings)).*2)
  = spend_threshold (foldr Z.add 0) quantile75 (as_row <$> bookings).
Proof.
  unfold spend_threshold. apply quantile75_permutation.
  apply fmap_Permutation, NoDup_Permutation.
  - apply NoDup_map_to_list.
  - apply spend_series_NoDup.
  - intros [k v]. by rewrite elem_of_map_to_list, customer_spend_series.
Qed.

Lemma high_spenders_any bookings k :
  k ∈ high_spenders bookings <->
  k ∈ high_spender_ids (foldr Z.add 0) quantile75 ge_threshold
        (as_row <$> bookings).
Proof.
  rewrite elem_of_high_spenders, elem_of_high_spender_ids,
    customer_spend_threshold.
  split.
  - intros (s & Hs & Hge).
    apply customer_spend_series, elem_of_spend_series in Hs as [Hk ->]. done.
  - intros [Hk Hge]. eexists. split; [|exact Hge].
    apply customer_spend_series, elem_of_spend_series. done.
Qed.

Lemma filter_ext_elem {B} (P Q : B -> Prop)
    `{!forall x, Decision (P x)} `{!forall x, Decision (Q x)} (l : list B) :
  (forall x, x ∈ l -> P x <-> Q x) -> filter P l = filter Q l.
Proof.
  induction l as [|a l IH]; intros Hpq; [done|].
  rewrite !filter_cons, IH by (intros x Hx; apply Hpq; by right).
  pose proof (Hpq a ltac:(by left)) as Ha.
  destruct (decide (P a)), (decide (Q a)); tauto || done.
Qed.

(** The compiler with exact integer amounts is the compiler over any
    arithmetic, taken at integer sums, the interpolated percentile and the
    comparison with it. *)
Lemma parse_segment_prompt_as_any p df bookings :
  parse_segment_prompt p df bookings
  = parse_segment_prompt_any (foldr Z.add 0) quantile75 ge_threshold p df
      ((fun bs : list Booking => as_row <$> bs) <$> bookings).
Proof.
  unfold parse_segment_prompt, parse_segment_prompt_any.
  destruct (customer_side (lower p) df) as [st|e]; [|done]. cbn [bind].
  do 2 f_equal. unfold spend_matcher, spend_matcher_any.
  destruct bookings as [bs|]; [|done]. simpl.
  destruct (contains "spend" (lower p)); [|done].
  f_equal. unfold select. f_equal. apply filter_ext_elem.
  intros r _. apply high_spenders_any.
Qed.

End IntegerInstance.
